(** * Neural style transfer (src/style_transfer/train.py)

    A shallow embedding of the training script: image loading, feature
    extraction through a frozen network, Gram matrices, the content and
    style losses, the optimisation loop and the final export.

    Tensors are a shape together with a row-major storage, as PyTorch and
    NumPy lay them out.  The scalar type is a parameter: every statement
    holds for any number system with the laws named in its hypotheses, and
    the examples run over fixed-point numbers. *)

From Stdlib Require Import QArith.
From stdpp Require Import gmap strings list pretty.

Open Scope nat_scope.

(** ** Scalars *)

(** The arithmetic a tensor element supports.  No law is assumed here; a
    theorem that needs one says so. *)
Class Scalar (R : Type) := {
  szero : R;
  sone : R;
  sadd : R → R → R;
  ssub : R → R → R;
  smul : R → R → R;
  sdiv : R → R → R;
  of_nat : nat → R;
  of_Q : Q → R;
  sleb : R → R → bool
}.

(** Fixed-point numbers with three decimal places, held in an integer: the
    number system of the examples. *)
Definition fx_scale : Z := 1000.

#[export] Instance fixed_point : Scalar Z := {
  szero := 0%Z;
  sone := fx_scale;
  sadd := Z.add;
  ssub := Z.sub;
  smul := λ a b, (a * b / fx_scale)%Z;
  sdiv := λ a b, (a * fx_scale / b)%Z;
  of_nat := λ n, (Z.of_nat n * fx_scale)%Z;
  of_Q := λ q, (Qnum q * fx_scale / Z.pos (Qden q))%Z;
  sleb := Z.leb
}.

(** ** Exceptions *)

Inductive Exn :=
  | ValueError
  | RuntimeError
  | KeyError (key : string)
  | ZeroDivisionError
  | RetrievalError.

Inductive Result (A : Type) :=
  | Ok (a : A)
  | Raise (e : Exn).
Arguments Ok {A} a.
Arguments Raise {A} e.

#[export] Instance Result_ret : MRet Result := λ A a, Ok a.
#[export] Instance Result_bind : MBind Result := λ A B f m,
  match m with
  | Ok a => f a
  | Raise e => Raise e
  end.

Definition is_Ok {A} (r : Result A) : Prop :=
  match r with Ok _ => True | Raise _ => False end.

(** ** Tensors *)

Section Tensors.
Context {R : Type} `{Scalar R}.

Record Tensor := mkTensor { tshape : list nat; tdata : list R }.

Definition numel (shape : list nat) : nat := foldr Nat.mul 1 shape.

Definition wf_tensor (t : Tensor) : Prop := length (tdata t) = numel (tshape t).

(** [tensor.view(r, c)]: the same storage under a new shape; PyTorch
    refuses a shape whose element count differs. *)
Definition view2 (t : Tensor) (r c : nat) : Result Tensor :=
  if decide (numel (tshape t) = r * c)
  then Ok (mkTensor [r; c] (tdata t))
  else Raise RuntimeError.

(** Element (i, j) of a matrix. *)
Definition at2 (t : Tensor) (i j : nat) : R :=
  match tshape t with
  | [_; c] => nth (i * c + j) (tdata t) szero
  | _ => szero
  end.

(** The storage of the r x c matrix whose entry (i, j) is [f i j]. *)
Definition tabulate2 (r c : nat) (f : nat → nat → R) : list R :=
  flat_map (λ i, map (f i) (seq 0 c)) (seq 0 r).

(** [tensor.t()]: a matrix is transposed, a scalar or a vector is returned
    as it is, a higher rank is an error. *)
Definition transpose (t : Tensor) : Result Tensor :=
  match tshape t with
  | [] | [_] => Ok t
  | [r; c] => Ok (mkTensor [c; r] (tabulate2 c r (λ j i, at2 t i j)))
  | _ => Raise RuntimeError
  end.

(** Sum of [f k * g k] for k = 0 .. n-1, accumulated from the left. *)
Definition dot (n : nat) (f g : nat → R) : R :=
  fold_left (λ acc k, sadd acc (smul (f k) (g k))) (seq 0 n) szero.

(** [torch.mm(a, b)]. *)
Definition mm (a b : Tensor) : Result Tensor :=
  match tshape a, tshape b with
  | [n; m], [m'; p] =>
      if decide (m = m')
      then Ok (mkTensor [n; p]
                 (tabulate2 n p (λ i j, dot m (λ k, at2 a i k) (λ k, at2 b k j))))
      else Raise RuntimeError
  | _, _ => Raise RuntimeError
  end.

(** Entry (i, j) of the Gram matrix of a storage read as rows of length
    [n]. *)
Definition gram_entry (n : nat) (data : list R) (i j : nat) : R :=
  dot n (λ k, nth (i * n + k) data szero) (λ k, nth (j * n + k) data szero).

(** train.py, gram_matrix. *)
Definition gram_matrix (tensor : Tensor) : Result Tensor :=
  match tshape tensor with
  | [_; d; h; w] =>
      tensor ← view2 tensor d (h * w);
      tt ← transpose tensor;
      mm tensor tt
  | _ => Raise ValueError
  end.

End Tensors.
Arguments Tensor R : clear implicits.

(** ** Python dictionaries

    A [dict] keeps its keys in insertion order; assigning to a key that is
    present replaces the value where it stands. *)

Section Dicts.
Context {V : Type}.

Definition Dict := list (string * V).

Fixpoint dict_get (d : Dict) (k : string) : option V :=
  match d with
  | [] => None
  | (k', v) :: d' => if decide (k = k') then Some v else dict_get d' k
  end.

Fixpoint dict_set (d : Dict) (k : string) (v : V) : Dict :=
  match d with
  | [] => [(k, v)]
  | (k', v') :: d' =>
      if decide (k = k') then (k', v) :: d' else (k', v') :: dict_set d' k v
  end.

(** [d[k]]. *)
Definition getitem (d : Dict) (k : string) : Result V :=
  match dict_get d k with
  | Some v => Ok v
  | None => Raise (KeyError k)
  end.

End Dicts.
Arguments Dict V : clear implicits.

(** ** Strings *)

Fixpoint starts_with (needle hay : string) : bool :=
  match needle, hay with
  | EmptyString, _ => true
  | String a needle', String b hay' =>
      if decide (a = b) then starts_with needle' hay' else false
  | String _ _, EmptyString => false
  end.

(** Python's [needle in hay] on strings. *)
Fixpoint contains (needle hay : string) : bool :=
  starts_with needle hay ||
  match hay with
  | EmptyString => false
  | String _ hay' => contains needle hay'
  end.

(** ** Images and their tensors *)

(** A decoded PIL image: [size] is (width, height); [im_pixel band y x] is
    an 8-bit value. *)
Record Image := mkImage {
  im_width : nat;
  im_height : nat;
  im_bands : nat;
  im_pixel : nat → nat → nat → nat
}.

(** The argument of [transforms.Resize]. *)
Inductive SizeArg :=
  | SizeInt (n : nat)
  | SizeSeq (l : list nat).

(** torchvision's output size for an image of height [h] and width [w]: an
    int is matched by the smaller edge, and the other edge follows the
    aspect ratio, [int(size * long / short)]; a sequence (h, w) is taken as
    it is; a one-element sequence is read as an int. *)
Definition requested_hw (h w : nat) (size : SizeArg) : Result (nat * nat) :=
  let smaller_edge s :=
    if decide (w ≤ h) then (s * h / w, s) else (s, s * w / h) in
  match size with
  | SizeInt s => Ok (smaller_edge s)
  | SizeSeq [s] => Ok (smaller_edge s)
  | SizeSeq [h'; w'] => Ok (h', w')
  | SizeSeq _ => Raise ValueError
  end.

(** The size [transforms.Resize(size)] gives the image: PIL's resize
    refuses an empty one ("height and width must be > 0"). *)
Definition resized_hw (h w : nat) (size : SizeArg) : Result (nat * nat) :=
  '(h', w') ← requested_hw h w size;
  if decide (h' = 0 ∨ w' = 0) then Raise ValueError else Ok (h', w').

Section Model.
Context {R : Type} `{Scalar R}.

Definition tabulate3 (a b c : nat) (f : nat → nat → nat → R) : list R :=
  flat_map (λ i, flat_map (λ j, map (f i j) (seq 0 c)) (seq 0 b)) (seq 0 a).

Definition at3 (t : Tensor R) (i j k : nat) : R :=
  match tshape t with
  | [_; b; c] => nth ((i * b + j) * c + k) (tdata t) szero
  | _ => szero
  end.

(** Element-wise operations.  PyTorch broadcasts operands of different
    shapes; the script only ever combines equal shapes, and the model
    stops at anything else. *)
Fixpoint zip_with_R (f : R → R → R) (l1 l2 : list R) : list R :=
  match l1, l2 with
  | x :: l1', y :: l2' => f x y :: zip_with_R f l1' l2'
  | _, _ => []
  end.

Definition tsub (a b : Tensor R) : Result (Tensor R) :=
  if decide (tshape a = tshape b)
  then Ok (mkTensor (tshape a) (zip_with_R ssub (tdata a) (tdata b)))
  else Raise RuntimeError.

Definition tadd (a b : Tensor R) : Tensor R :=
  mkTensor (tshape a) (zip_with_R sadd (tdata a) (tdata b)).

(** [t ** 2]. *)
Definition tsquare (t : Tensor R) : Tensor R :=
  mkTensor (tshape t) (map (λ x, smul x x) (tdata t)).

Definition ssum (l : list R) : R := fold_left sadd l szero.

(** [torch.mean(t)]. *)
Definition tmean (t : Tensor R) : R :=
  sdiv (ssum (tdata t)) (of_nat (length (tdata t))).

(** [torch.mean((a - b)**2)]. *)
Definition mse (a b : Tensor R) : Result R :=
  d ← tsub a b;
  mret (tmean (tsquare d)).

(** *** Loading an image (train.py, load_image) *)

Definition norm_mean : list R := [of_Q 0.485; of_Q 0.456; of_Q 0.406]%Q.
Definition norm_std : list R := [of_Q 0.229; of_Q 0.224; of_Q 0.225]%Q.

(** What lies outside the script: the network, the file system, the image
    codecs and resampling filter, the pretrained weights, reverse-mode
    differentiation and the arithmetic of the Adam update.

    A module of the network is its weights and its forward function.
    torchvision's VGG applies its rectifiers in place, so the tensor the
    script keeps for a convolution is read after the rectifier that
    follows; as the rectifier is idempotent, taking [mod_forward] of such
    a convolution to include it gives the same value at every point. *)
Record Module_ := mkModule {
  mod_weights : list (Tensor R);
  mod_forward : list (Tensor R) → Tensor R → Tensor R
}.

Record AdamSt := mkAdamSt {
  adam_step : nat;
  exp_avg : option (Tensor R);
  exp_avg_sq : option (Tensor R)
}.

Record Param := mkParam {
  pvalue : Tensor R;
  requires_grad : bool;
  pgrad : option (Tensor R)
}.

Record World := mkWorld {
  requests_get : string → option string;
  Image_open_bytes : string → option Image;
  Image_open : string → option Image;
  convert_RGB : Image → nat → nat → nat → nat;
  resample : Image → nat → nat → nat → nat → nat → nat;
  vgg19_pretrained : list (string * Module_);
  autograd : (gmap nat Param → Result R) → gmap nat Param → nat → option (Tensor R);
  adam_math : R → AdamSt → Tensor R → Tensor R → Tensor R * Tensor R * Tensor R
}.

(** Effects the outside can observe, in the order they happen. *)
Inductive Event :=
  | EvHttpGet (url : string)
  | EvOpenFile (path : string)
  | EvAddScalar (tag : string) (value : R) (global_step : nat)
  | EvPrint (text : string) (value : R)
  | EvImshow (image : Tensor R)
  | EvAddFigure (tag : string) (global_step : nat)
  | EvImsave (fname : string) (image : Tensor R).

Record State := mkState {
  store : gmap nat Param;
  next_id : nat;
  adam_state : gmap nat AdamSt;
  trace : list Event
}.

(** State and exceptions: the state survives a raise. *)
Definition M (A : Type) : Type := State → Result A * State.

#[export] Instance M_ret : MRet M := λ A a s, (Ok a, s).
#[export] Instance M_bind : MBind M := λ A B f m s,
  match m s with
  | (Ok a, s') => f a s'
  | (Raise e, s') => (Raise e, s')
  end.

Definition raise {A} (e : Exn) : M A := λ s, (Raise e, s).
Definition lift {A} (r : Result A) : M A := λ s, (r, s).
Definition emit (e : Event) : M unit :=
  λ s, (Ok (), mkState (store s) (next_id s) (adam_state s) (trace s ++ [e])).
Definition get_store : M (gmap nat Param) := λ s, (Ok (store s), s).
Definition set_store (st : gmap nat Param) : M unit :=
  λ s, (Ok (), mkState st (next_id s) (adam_state s) (trace s)).
Definition alloc (p : Param) : M nat :=
  λ s, (Ok (next_id s),
        mkState (<[next_id s := p]> (store s)) (S (next_id s)) (adam_state s) (trace s)).

(** A retrieval or decoding that fails raises. *)
Definition retrieved {A} (o : option A) : M A :=
  match o with
  | Some a => mret a
  | None => raise RetrievalError
  end.

Fixpoint for_each {A} (l : list A) (body : A → M unit) : M unit :=
  match l with
  | [] => mret ()
  | a :: l' => body a ;; for_each l' body
  end.

Fixpoint map_M {A B} (f : A → M B) (l : list A) : M (list B) :=
  match l with
  | [] => mret []
  | a :: l' => b ← f a; bs ← map_M f l'; mret (b :: bs)
  end.

Fixpoint fold_result {A B} (f : A → B → Result A) (l : list B) (a : A) : Result A :=
  match l with
  | [] => Ok a
  | b :: l' => a' ← f a b; fold_result f l' a'
  end.

Variable W : World.

(** [Image.open(...)] on the path or on the downloaded bytes, then
    [.convert('RGB')]. *)
Definition open_source (img_path : string) : M Image :=
  image ← (if contains "http" img_path then
             emit (EvHttpGet img_path);;
             content ← retrieved (requests_get W img_path);
             retrieved (Image_open_bytes W content)
           else
             emit (EvOpenFile img_path);;
             retrieved (Image_open W img_path));
  mret (mkImage (im_width image) (im_height image) 3 (convert_RGB W image)).

(** [transforms.Resize(size)]. *)
Definition resize (image : Image) (size : SizeArg) : Result Image :=
  '(h, w) ← resized_hw (im_height image) (im_width image) size;
  mret (mkImage w h (im_bands image) (resample W image h w)).

(** [transforms.ToTensor()]: bands x height x width, values in [0, 1]. *)
Definition to_tensor (image : Image) : Tensor R :=
  mkTensor [im_bands image; im_height image; im_width image]
    (tabulate3 (im_bands image) (im_height image) (im_width image)
       (λ c y x, sdiv (of_nat (im_pixel image c y x)) (of_nat 255))).

(** [transforms.Normalize(mean, std)] on a bands x height x width tensor. *)
Definition normalize (mean std : list R) (t : Tensor R) : Tensor R :=
  match tshape t with
  | [c; h; w] =>
      mkTensor [c; h; w]
        (tabulate3 c h w
           (λ k y x, sdiv (ssub (at3 t k y x) (nth k mean szero)) (nth k std szero)))
  | _ => t
  end.

(** [t[:3,:,:]]. *)
Definition first3 (t : Tensor R) : Tensor R :=
  match tshape t with
  | [c; h; w] => mkTensor [c `min` 3; h; w] (take ((c `min` 3) * h * w) (tdata t))
  | _ => t
  end.

(** [t.unsqueeze(0)]. *)
Definition unsqueeze0 (t : Tensor R) : Tensor R :=
  mkTensor (1 :: tshape t) (tdata t).

(** train.py, load_image. *)
Definition load_image (img_path : string) (max_size : nat)
    (shape : option (list nat)) : M (Tensor R) :=
  image ← open_source img_path;
  let size :=
    if decide (max_size < im_width image `max` im_height image)
    then SizeInt max_size
    else SizeInt (im_width image `max` im_height image) in
  let size :=
    match shape with
    | Some shape => SizeSeq shape
    | None => size
    end in
  image ← lift (resize image size);
  mret (unsqueeze0 (first3 (normalize norm_mean norm_std (to_tensor image)))).

(** *** Un-normalising for display (train.py, im_convert) *)

(** A floating-point value that is not a number is the one value that
    does not compare to itself. *)
Definition is_nan (x : R) : bool := negb (sleb x x).

(** [np.maximum] and [np.minimum]: if one of the two is not a number, that
    one is returned. *)
Definition smaximum (a b : R) : R :=
  if is_nan a then a else if is_nan b then b else if sleb a b then b else a.
Definition sminimum (a b : R) : R :=
  if is_nan a then a else if is_nan b then b else if sleb a b then a else b.

(** [x.clip(lo, hi)], as NumPy computes it: minimum(maximum(x, lo), hi). *)
Definition clip (x lo hi : R) : R := sminimum (smaximum x lo) hi.

(** [squeeze()] drops every axis of length one; [transpose(1,2,0)] needs
    three axes; the broadcast against the three constants needs a last
    axis of length three. *)
Definition im_convert (tensor : Tensor R) : Result (Tensor R) :=
  let image := mkTensor (filter (λ d, d ≠ 1) (tshape tensor)) (tdata tensor) in
  match tshape image with
  | [c; h; w] =>
      if decide (c = 3)
      then
        Ok (mkTensor [h; w; c]
              (tabulate3 h w c
                 (λ y x k,
                    clip (sadd (smul (at3 image k y x) (nth k norm_std szero))
                               (nth k norm_mean szero))
                         szero sone)))
      else Raise ValueError
  | _ => Raise ValueError
  end.

(** *** Feature extraction (train.py, get_features) *)

Record Layer := mkLayer {
  layer_params : list nat;
  layer_forward : list (Tensor R) → Tensor R → Tensor R
}.

Definition default_layers : Dict string :=
  [("0", "conv1_1"); ("5", "conv2_1"); ("10", "conv3_1");
   ("19", "conv4_1"); ("21", "conv4_2"); ("28", "conv5_1")].

Definition apply_layer (st : gmap nat Param) (layer : Layer) (x : Tensor R) : Tensor R :=
  layer_forward layer (omap (λ id, pvalue <$> st !! id) (layer_params layer)) x.

(** train.py, get_features.  [features[key] = x] keeps the tensor itself,
    not a copy, so a module that works in place on its input right after
    writes to the tensor kept; a layer here returns a new tensor, and such
    a module is part of the [layer_forward] of the module it follows, as
    said at [Module_]. *)
Definition get_features (st : gmap nat Param) (image : Tensor R)
    (model : list (string * Layer)) (layers : option (Dict string))
    : Dict (Tensor R) :=
  let layers := default default_layers layers in
  snd (fold_left
         (λ '(x, features) '(name, layer),
            let x := apply_layer st layer x in
            match dict_get layers name with
            | Some key => (x, dict_set features key x)
            | None => (x, features)
            end)
         model (image, [])).

(** *** The losses (train.py, lines 154-173) *)

Definition content_loss_of (target_features content_features : Dict (Tensor R))
    : Result R :=
  t ← getitem target_features "conv4_2";
  c ← getitem content_features "conv4_2";
  mse t c.

(** One pass of the loop over [style_weights]. *)
Definition style_layer_step (target_features style_grams : Dict (Tensor R))
    (style_loss : R) (entry : string * R) : Result R :=
  let '(layer, weight) := entry in
  target_feature ← getitem target_features layer;
  target_gram ← gram_matrix target_feature;
  match tshape target_feature with
  | [_; d; h; w] =>
      style_gram ← getitem style_grams layer;
      m ← mse target_gram style_gram;
      let layer_style_loss := smul weight m in
      mret (sadd style_loss (sdiv layer_style_loss (of_nat (d * h * w))))
  | _ => Raise ValueError
  end.

Definition style_loss_of (target_features style_grams : Dict (Tensor R))
    (style_weights : Dict R) : Result R :=
  fold_result (style_layer_step target_features style_grams) style_weights szero.

Definition total_loss_of (target_features content_features style_grams : Dict (Tensor R))
    (style_weights : Dict R) (content_weight style_weight : R) : Result R :=
  content_loss ← content_loss_of target_features content_features;
  style_loss ← style_loss_of target_features style_grams style_weights;
  mret (sadd (smul content_weight content_loss) (smul style_weight style_loss)).

(** *** Parameters, gradients and the optimiser *)

(** [models.vgg19(weights=...).features]: every weight becomes a parameter
    of its own in the store, trainable as PyTorch creates it. *)
Definition load_module (entry : string * Module_) : M (string * Layer) :=
  let '(name, m) := entry in
  ids ← map_M (λ w, alloc (mkParam w true None)) (mod_weights m);
  mret (name, mkLayer ids (mod_forward m)).

Definition load_vgg19 : M (list (string * Layer)) :=
  map_M load_module (vgg19_pretrained W).

(** [model.parameters()]. *)
Definition parameters (model : list (string * Layer)) : list nat :=
  flat_map (λ entry, layer_params (snd entry)) model.

(** [param.requires_grad_(flag)]. *)
Definition set_requires_grad (flag : bool) (id : nat) : M unit :=
  st ← get_store;
  match st !! id with
  | Some p => set_store (<[id := mkParam (pvalue p) flag (pgrad p)]> st)
  | None => raise RuntimeError
  end.

(** [optim.Adam(params, lr)]: the optimiser knows the parameters it was
    given and no others. *)
Record Adam := mkAdam { param_group : list nat; adam_lr : R }.

(** [optimizer.zero_grad()]. *)
Definition zero_grad (opt : Adam) : M unit :=
  for_each (param_group opt) (λ id,
    st ← get_store;
    match st !! id with
    | Some p => set_store (<[id := mkParam (pvalue p) (requires_grad p) None]> st)
    | None => mret ()
    end).

(** [loss.backward()]: each leaf that requires a gradient and that the loss
    reaches has the gradient added to its [grad]. *)
Definition accumulate (old : option (Tensor R)) (g : Tensor R) : Tensor R :=
  match old with
  | Some g0 => tadd g0 g
  | None => g
  end.

Definition backward (loss : gmap nat Param → Result R) : M unit :=
  st ← get_store;
  set_store
    (map_imap
       (λ id p,
          Some (if requires_grad p
                then match autograd W loss st id with
                     | Some g => mkParam (pvalue p) true (Some (accumulate (pgrad p) g))
                     | None => p
                     end
                else p))
       st).

(** [optimizer.step()]: each parameter of the optimiser that has a gradient
    is updated, and its step count and moments with it. *)
Definition adam_update (opt : Adam) (id : nat) : M unit :=
  λ s,
    match store s !! id with
    | Some p =>
        match pgrad p with
        | Some g =>
            let old := default (mkAdamSt 0 None None) (adam_state s !! id) in
            let cur := mkAdamSt (S (adam_step old)) (exp_avg old) (exp_avg_sq old) in
            let '(value, m, v) := adam_math W (adam_lr opt) cur (pvalue p) g in
            (Ok (),
             mkState (<[id := mkParam value (requires_grad p) (pgrad p)]> (store s))
                     (next_id s)
                     (<[id := mkAdamSt (adam_step cur) (Some m) (Some v)]> (adam_state s))
                     (trace s))
        | None => (Ok (), s)
        end
    | None => (Ok (), s)
    end.

Definition step (opt : Adam) : M unit :=
  for_each (param_group opt) (adam_update opt).

(** *** The script *)

Record Config := mkConfig {
  content_path : string;
  style_path : string;
  max_size : nat;
  style_weights : Dict R;
  content_weight : R;
  style_weight : R;
  show_every : nat;
  learning_rate : R;
  steps : nat
}.

Definition default_config : Config := {|
  content_path := "images/pisa.jpeg";
  style_path := "images/ship_at_sea.jpeg";
  max_size := 400;
  style_weights :=
    [("conv1_1", of_Q 1); ("conv2_1", of_Q 0.8); ("conv3_1", of_Q 0.5);
     ("conv4_1", of_Q 0.3); ("conv5_1", of_Q 0.1)]%Q;
  content_weight := of_nat 1;
  style_weight := of_Q 1000000%Q;
  show_every := 200;
  learning_rate := of_Q 0.003%Q;
  steps := 2001
|}.

Variable cfg : Config.

Definition read_param (id : nat) : M (Tensor R) :=
  st ← get_store;
  match st !! id with
  | Some p => mret (pvalue p)
  | None => raise RuntimeError
  end.

(** The total loss as a function of the parameters (lines 151-173). *)
Definition total_loss_at (vgg : list (string * Layer))
    (content_features style_grams : Dict (Tensor R)) (target : nat)
    (st : gmap nat Param) : Result R :=
  match st !! target with
  | Some p =>
      let target_features := get_features st (pvalue p) vgg None in
      total_loss_of target_features content_features style_grams
        (style_weights cfg) (content_weight cfg) (style_weight cfg)
  | None => Raise RuntimeError
  end.

(** The body of the training loop (lines 149-184). *)
Definition iteration (vgg : list (string * Layer))
    (content_features style_grams : Dict (Tensor R))
    (target : nat) (optimizer : Adam) (ii : nat) : M unit :=
  st ← get_store;
  total_loss ← lift (total_loss_at vgg content_features style_grams target st);
  emit (EvAddScalar "total_loss" total_loss ii);;
  zero_grad optimizer;;
  backward (total_loss_at vgg content_features style_grams target);;
  step optimizer;;
  if decide (show_every cfg = 0) then raise ZeroDivisionError
  else if decide (ii `mod` show_every cfg = 0) then
    emit (EvPrint "Total loss: " total_loss);;
    image ← read_param target;
    image ← lift (im_convert image);
    emit (EvImshow image);;
    emit (EvAddFigure "figs" ii)
  else mret ().

(** [{layer: gram_matrix(style_features[layer]) for layer in style_features}]. *)
Definition gram_all (style_features : Dict (Tensor R)) : Result (Dict (Tensor R)) :=
  fold_result
    (λ grams entry, g ← gram_matrix (snd entry); mret (dict_set grams (fst entry) g))
    style_features [].

(** [shape[-2:]]. *)
Definition last2 (shape : list nat) : list nat := drop (length shape - 2) shape.

Definition train_loop (vgg : list (string * Layer))
    (content_features style_grams : Dict (Tensor R))
    (target : nat) (optimizer : Adam) : M unit :=
  for_each (seq 0 (steps cfg + 1))
    (iteration vgg content_features style_grams target optimizer).

Definition export (target : nat) : M unit :=
  image ← read_param target;
  image ← lift (im_convert image);
  emit (EvImsave "target.png" image).

(** Everything before the loop (lines 44-145). *)
Record Prepared := mkPrepared {
  p_vgg : list (string * Layer);
  p_content_features : Dict (Tensor R);
  p_style_grams : Dict (Tensor R);
  p_target : nat;
  p_optimizer : Adam
}.

Definition prepare : M Prepared :=
  vgg ← load_vgg19;
  for_each (parameters vgg) (set_requires_grad false);;
  content ← load_image (content_path cfg) (max_size cfg) None;
  style ← load_image (style_path cfg) (max_size cfg) (Some (last2 (tshape content)));
  st ← get_store;
  let content_features := get_features st content vgg None in
  let style_features := get_features st style vgg None in
  style_grams ← lift (gram_all style_features);
  target ← alloc (mkParam content true None);
  let optimizer := mkAdam [target] (learning_rate cfg) in
  mret (mkPrepared vgg content_features style_grams target optimizer).

Definition main : M unit :=
  p ← prepare;
  train_loop (p_vgg p) (p_content_features p) (p_style_grams p)
             (p_target p) (p_optimizer p);;
  export (p_target p).

Definition initial_state : State := mkState ∅ 0 ∅ [].

End Model.

(** ** The specification's wording

    Definitions that follow the specification's sentences, to be compared
    with the code above. *)

Section Spec.
Context {R : Type} `{Scalar R}.

(** "reshape to (C, H·W)": the rows of X. *)
Definition spec_rows (c n : nat) (data : list R) : list (list R) :=
  map (λ i, take n (drop (i * n) data)) (seq 0 c).

(** One entry of X · Xᵗ: the products of two rows, summed. *)
Definition spec_inner (u v : list R) : R :=
  fold_left (λ acc ab, sadd acc (smul (fst ab) (snd ab))) (zip u v) szero.

(** "compute M = X · Xᵗ (C×C)", row by row. *)
Definition spec_gram (c n : nat) (data : list R) : list (list R) :=
  let X := spec_rows c n data in
  map (λ u, map (λ v, spec_inner u v) X) X.

Definition spec_sum (l : list R) : R := foldr sadd szero l.

(** "mean squared error". *)
Definition spec_mse (a b : Tensor R) : Result R :=
  if decide (tshape a = tshape b)
  then
    let squares := zip_with_R (λ x y, smul (ssub x y) (ssub x y)) (tdata a) (tdata b) in
    Ok (sdiv (spec_sum squares) (of_nat (length squares)))
  else Raise RuntimeError.

Fixpoint map_result {A B} (f : A → Result B) (l : list A) : Result (list B) :=
  match l with
  | [] => Ok []
  | a :: l' => b ← f a; bs ← map_result f l'; mret (b :: bs)
  end.

(** "Given a feature map of shape (1, C, H, W): reshape to (C, H·W) and
    compute M = X · Xᵗ (C×C)".  The first axis is not looked at. *)
Definition spec_gram_matrix (feature_map : Tensor R) : Result (Tensor R) :=
  match tshape feature_map with
  | [_; c; h; w] =>
      Ok (mkTensor [c; c] (concat (spec_gram c (h * w) (tdata feature_map))))
  | _ => Raise ValueError
  end.

(** "for each style layer name in styleWeights, compute the target's Gram
    matrix, compute mean squared error against the precomputed style Gram
    matrix for that layer, multiply by the layer's weight, divide by C·H·W
    of that layer's target feature map". *)
Definition spec_style_term (target_features style_grams : Dict (Tensor R))
    (entry : string * R) : Result R :=
  target_feature ← getitem target_features (fst entry);
  target_gram ← spec_gram_matrix target_feature;
  match tshape target_feature with
  | [_; c; h; w] =>
      style_gram ← getitem style_grams (fst entry);
      m ← spec_mse target_gram style_gram;
      mret (sdiv (smul (snd entry) m) (of_nat (c * h * w)))
  | _ => Raise ValueError
  end.

(** Every feature map has as many values as its shape says. *)
Definition features_wf (features : Dict (Tensor R)) : Prop :=
  Forall (λ entry, wf_tensor (snd entry)) features.

(** "Total loss = contentWeight * contentLoss + styleWeight * styleLoss". *)
Definition spec_total_loss (target_features content_features style_grams : Dict (Tensor R))
    (style_weights : Dict R) (content_weight style_weight : R) : Result R :=
  content_loss ←
    (t ← getitem target_features "conv4_2";
     c ← getitem content_features "conv4_2";
     spec_mse t c);
  terms ← map_result (spec_style_term target_features style_grams) style_weights;
  mret (sadd (smul content_weight content_loss) (smul style_weight (spec_sum terms))).

(** What the telemetry writer, the console and the exporter received. *)
Definition scalar_steps (tr : list (Event (R := R))) : list nat :=
  omap (λ e, match e with EvAddScalar _ _ i => Some i | _ => None end) tr.

Definition scalars (tr : list (Event (R := R))) : list (nat * R) :=
  omap (λ e, match e with EvAddScalar _ v i => Some (i, v) | _ => None end) tr.

Definition figure_steps (tr : list (Event (R := R))) : list nat :=
  omap (λ e, match e with EvAddFigure _ i => Some i | _ => None end) tr.

Definition prints (tr : list (Event (R := R))) : list R :=
  omap (λ e, match e with EvPrint _ v => Some v | _ => None end) tr.

Definition exports (tr : list (Event (R := R))) : list (Tensor R) :=
  omap (λ e, match e with EvImsave _ img => Some img | _ => None end) tr.

(** The request a source leads to. *)
Definition io_event (path : string) : Event (R := R) :=
  if contains "http" path then EvHttpGet path else EvOpenFile path.

(** What the route [load_image] takes for a source yields. *)
Definition fetch (W : World (R := R)) (path : string) : option Image :=
  if contains "http" path
  then content ← requests_get W path; Image_open_bytes W content
  else Image_open W path.

(** The image [load_image] goes on with, or the exception it raises. *)
Definition decoded (W : World (R := R)) (o : option Image) : Result Image :=
  match o with
  | Some image =>
      Ok (mkImage (im_width image) (im_height image) 3 (convert_RGB W image))
  | None => Raise RetrievalError
  end.

(** A source that cannot be fetched or decoded. *)
Definition unavailable (W : World (R := R)) (path : string) : Prop :=
  fetch W path = None.

(** The state with one more event. *)
Definition with_event (s : State (R := R)) (e : Event (R := R)) : State (R := R) :=
  mkState (store s) (next_id s) (adam_state s) (trace s ++ [e]).

(** The size [load_image] asks [Resize] for. *)
Definition requested_size (image : Image) (max_size : nat) (shape : option (list nat))
    : SizeArg :=
  match shape with
  | Some shape => SizeSeq shape
  | None =>
      if decide (max_size < im_width image `max` im_height image)
      then SizeInt max_size
      else SizeInt (im_width image `max` im_height image)
  end.

(** A relation between the state before and the state after that a
    computation keeps, whether it returns or raises. *)
Definition preserves {A} (Q : State (R := R) → State (R := R) → Prop)
    (m : M (R := R) A) : Prop :=
  ∀ s, Q s (snd (m s)).

Definition same_trace (s s' : State (R := R)) : Prop := trace s' = trace s.

Definition same_tensors (s s' : State (R := R)) : Prop :=
  store s' = store s ∧ next_id s' = next_id s ∧ adam_state s' = adam_state s.

(** Every parameter but [target] neither asks for a gradient nor has one. *)
Definition others_frozen (target : nat) (s : State (R := R)) : Prop :=
  ∀ id p, id ≠ target → store s !! id = Some p →
    requires_grad p = false ∧ pgrad p = None.

(** Nothing but [target] and its optimiser state differs. *)
Definition only_target_changed (target : nat) (s s' : State (R := R)) : Prop :=
  (∀ id, id ≠ target → store s' !! id = store s !! id) ∧
  (∀ id, id ≠ target → adam_state s' !! id = adam_state s !! id).

Definition frame (target : nat) (s s' : State (R := R)) : Prop :=
  others_frozen target s → only_target_changed target s s'.

(** What a pass of the loop that returns has sent out: the scalar,
    whatever the index; the print and the figure when the index is a
    multiple of [show_every]. *)
Definition pass_events (show_every ii : nat) (total_loss : R) (image : Tensor R)
    : list (Event (R := R)) :=
  EvAddScalar "total_loss" total_loss ii ::
  (if decide (ii `mod` show_every = 0)
   then [EvPrint "Total loss: " total_loss; EvImshow image; EvAddFigure "figs" ii]
   else []).

(** The state after the parameters [ids] were allocated. *)
Definition allocated (ids : list nat) (s s' : State (R := R)) : Prop :=
  trace s' = trace s ∧
  adam_state s' = adam_state s ∧
  (∀ id, id ∈ ids → is_Some (store s' !! id)) ∧
  (∀ id, is_Some (store s !! id) → is_Some (store s' !! id)) ∧
  (∀ id p, store s' !! id = Some p →
     store s !! id = Some p ∨ (id ∈ ids ∧ pgrad p = None)) ∧
  ((∀ id, is_Some (store s !! id) → id < next_id s) →
   (∀ id, is_Some (store s' !! id) → id < next_id s')).

(** A parameter after [requires_grad_(False)] on the parameters [ids]. *)
Definition freeze_param (ids : list nat) (id : nat) (p : Param (R := R)) : Param (R := R) :=
  mkParam (pvalue p) (if decide (id ∈ ids) then false else requires_grad p) (pgrad p).


End Spec.

(** ** A small world to run the script in *)

Definition ex_image (w h : nat) : Image :=
  mkImage w h 3 (λ c y x, 40 * c + 10 * y + x).

(** A feature map of shape (1, 2, 1, 2), and a Gram matrix to compare
    its own with. *)
Definition ex_feature : Tensor Z := mkTensor [1; 2; 1; 2] [1000; 2000; 3000; 4000]%Z.
Definition ex_gram : Tensor Z := mkTensor [2; 2] [3000; 9000; 13000; 27000]%Z.

Definition ex_module (weights : list (Tensor Z)) : Module_ (R := Z) :=
  mkModule weights (λ _ x, x).

Definition ex_vgg19 : list (string * Module_ (R := Z)) :=
  map (λ i, (pretty i,
             ex_module (if decide (i `mod` 2 = 0)
                        then [mkTensor [1] [of_nat i]; mkTensor [1] [szero]]
                        else [])))
      (seq 0 37).

(** Gradient: ones, for the leaves that require one.  Update: plain descent. *)
Definition ex_autograd (loss : gmap nat (Param (R := Z)) → Result Z)
    (st : gmap nat (Param (R := Z))) (id : nat) : option (Tensor Z) :=
  p ← st !! id;
  Some (mkTensor (tshape (pvalue p)) (map (λ _, sone) (tdata (pvalue p)))).

Definition ex_adam_math (lr : Z) (st : AdamSt (R := Z)) (p g : Tensor Z)
    : Tensor Z * Tensor Z * Tensor Z :=
  (mkTensor (tshape p)
     (zip_with_R (λ x d, ssub x (smul lr d)) (tdata p) (tdata g)), g, g).

Definition ex_world (content style : Image) : World (R := Z) := {|
  requests_get := λ url,
    if decide (url = "https://example.org/style.png") then Some "PNG" else None;
  Image_open_bytes := λ content, if decide (content = "PNG") then Some style else None;
  Image_open := λ path,
    if decide (path = "images/pisa.jpeg") then Some content
    else if decide (path = "images/ship_at_sea.jpeg") then Some style
    else None;
  convert_RGB := im_pixel;
  resample := λ image h w c y x,
    im_pixel image c (y * im_height image / h) (x * im_width image / w);
  vgg19_pretrained := ex_vgg19;
  autograd := ex_autograd;
  adam_math := ex_adam_math
|}.

Definition ex_small_world : World (R := Z) := ex_world (ex_image 2 2) (ex_image 4 3).

(** The default configuration, cut to four passes with a snapshot every
    second one. *)
Definition ex_config : Config (R := Z) := {|
  content_path := content_path default_config;
  style_path := style_path default_config;
  max_size := max_size default_config;
  style_weights := style_weights default_config;
  content_weight := content_weight default_config;
  style_weight := style_weight default_config;
  show_every := 2;
  learning_rate := learning_rate default_config;
  steps := 3
|}.

(** What the preparation hands to the loop in the small world. *)
Definition ex_prepared : Prepared (R := Z) :=
  match fst (prepare ex_small_world ex_config initial_state) with
  | Ok p => p
  | Raise _ => mkPrepared [] [] [] 0 (mkAdam [] 0%Z)
  end.

(** The state the loop starts in, the target there, and the state after
    the first pass. *)
Definition ex_start : State (R := Z) :=
  snd (prepare ex_small_world ex_config initial_state).


Definition ex_first_pass : M (R := Z) unit :=
  iteration ex_small_world ex_config (p_vgg ex_prepared)
    (p_content_features ex_prepared) (p_style_grams ex_prepared)
    (p_target ex_prepared) (p_optimizer ex_prepared) 0.

(** A photograph wider than the limit, and one within it. *)
Definition ex_large_world : World (R := Z) := ex_world (ex_image 800 600) (ex_image 4 3).
Definition ex_medium_world : World (R := Z) := ex_world (ex_image 300 200) (ex_image 4 3).


(** ** Further vocabulary *)


Section MoreSpec.
Context {R : Type} `{Scalar R}.

(** [k * t]. *)
Definition tscale (k : R) (t : Tensor R) : Tensor R :=
  mkTensor (tshape t) (map (smul k) (tdata t)).

(** One turn of the loop of [get_features]. *)
Definition capture (st : gmap nat (Param (R := R))) (layers : Dict string)
    (acc : Tensor R * Dict (Tensor R)) (entry : string * Layer (R := R))
    : Tensor R * Dict (Tensor R) :=
  let x := apply_layer st (snd entry) (fst acc) in
  match dict_get layers (fst entry) with
  | Some key => (x, dict_set (snd acc) key x)
  | None => (x, snd acc)
  end.

(** The number of steps the optimiser has made on a parameter. *)
Definition step_count (s : State (R := R)) (id : nat) : nat :=
  match adam_state s !! id with
  | Some a => adam_step a
  | None => 0
  end.

(** The tensor [load_image] makes of a fetched image resized to h x w. *)
Definition loaded_tensor (W : World (R := R)) (image : Image) (h w : nat) : Tensor R :=
  unsqueeze0
    (first3
       (normalize norm_mean norm_std
          (to_tensor
             (mkImage w h 3
                (resample W
                   (mkImage (im_width image) (im_height image) 3 (convert_RGB W image))
                   h w))))).

(** The state after [zero_grad], [backward] and [step], in that order. *)
Definition after_updates (W : World (R := R)) (loss : gmap nat (Param (R := R)) → Result R)
    (optimizer : Adam (R := R)) (s : State (R := R)) : State (R := R) :=
  snd (step W optimizer (snd (backward W loss (snd (zero_grad optimizer s))))).

(** The end of a pass whose index is a multiple of [show_every]. *)
Definition show_result (target ii : nat) (total_loss : R) (s : State (R := R))
    : Result unit * State (R := R) :=
  let s := with_event s (EvPrint "Total loss: " total_loss) in
  match store s !! target with
  | None => (Raise RuntimeError, s)
  | Some prm =>
      match im_convert (pvalue prm) with
      | Raise e => (Raise e, s)
      | Ok image =>
          (Ok (), with_event (with_event s (EvImshow image)) (EvAddFigure "figs" ii))
      end
  end.

(** A pass of the loop, outcome by outcome. *)
Definition pass_result (W : World (R := R)) (cfg : Config (R := R))
    (vgg : list (string * Layer (R := R)))
    (content_features style_grams : Dict (Tensor R)) (target : nat)
    (optimizer : Adam (R := R)) (ii : nat) (s : State (R := R))
    : Result unit * State (R := R) :=
  let loss := total_loss_at cfg vgg content_features style_grams target in
  match loss (store s) with
  | Raise e => (Raise e, s)
  | Ok total_loss =>
      let s := after_updates W loss optimizer
                 (with_event s (EvAddScalar "total_loss" total_loss ii)) in
      if decide (show_every cfg = 0) then (Raise ZeroDivisionError, s)
      else if decide (ii `mod` show_every cfg = 0)
           then show_result target ii total_loss s
           else (Ok (), s)
  end.

(** The target is in the store and asks for a gradient. *)
Definition trainable (target : nat) (s : State (R := R)) : Prop :=
  ∃ p, store s !! target = Some p ∧ requires_grad p = true.

Definition keeps_trainable (target : nat) (s s' : State (R := R)) : Prop :=
  trainable target s → trainable target s'.

End MoreSpec.

(** A batch of two feature maps, and a feature map over the integers. *)
Definition ex_batch : Tensor Z := mkTensor [2; 2; 1; 2] [1; 2; 3; 4; 5; 6; 7; 8]%Z.

(** A network that stops before module 21, and features to try the
    losses on. *)
Definition ex_shallow_network : list (string * Layer (R := Z)) :=
  [("0", mkLayer [] (λ _ x, x)); ("5", mkLayer [] (λ _ x, x))].

(** The content tensor of the small world, and its display. *)
Definition ex_content : Tensor Z := loaded_tensor ex_small_world (ex_image 2 2) 2 2.
Definition ex_display : Tensor Z :=
  match im_convert ex_content with
  | Ok image => image
  | Raise _ => mkTensor [] []
  end.

(** The small configuration with [show_every] set to 0. *)
Definition ex_config_no_show : Config (R := Z) := {|
  content_path := content_path ex_config;
  style_path := style_path ex_config;
  max_size := max_size ex_config;
  style_weights := style_weights ex_config;
  content_weight := content_weight ex_config;
  style_weight := style_weight ex_config;
  show_every := 0;
  learning_rate := learning_rate ex_config;
  steps := steps ex_config
|}.

(** The loop of the small world, and the state four passes leave. *)
Definition ex_pass (ii : nat) : M (R := Z) unit :=
  iteration ex_small_world ex_config (p_vgg ex_prepared)
    (p_content_features ex_prepared) (p_style_grams ex_prepared)
    (p_target ex_prepared) (p_optimizer ex_prepared) ii.

Definition ex_after_four : State (R := Z) := snd (for_each (seq 0 4) ex_pass ex_start).



(** A style image far from the content image, and a target moved away from
    the content: neither loss vanishes there. *)
Definition ex_contrast_world : World (R := Z) :=
  ex_world (ex_image 2 2) (mkImage 4 3 3 (λ c y x, 250 - 100 * c - 20 * y - 5 * x)).

Definition ex_contrast_prepared : Prepared (R := Z) :=
  match fst (prepare ex_contrast_world ex_config initial_state) with
  | Ok p => p
  | Raise _ => mkPrepared [] [] [] 0 (mkAdam [] 0%Z)
  end.

Definition ex_moved_target : Param (R := Z) :=
  mkParam (tscale 2000%Z ex_content) true None.

Definition ex_moved_state : State (R := Z) :=
  let s := snd (prepare ex_contrast_world ex_config initial_state) in
  mkState (<[p_target ex_contrast_prepared := ex_moved_target]> (store s))
          (next_id s) (adam_state s) (trace s).

Definition ex_moved_pass : M (R := Z) unit :=
  iteration ex_contrast_world ex_config (p_vgg ex_contrast_prepared)
    (p_content_features ex_contrast_prepared) (p_style_grams ex_contrast_prepared)
    (p_target ex_contrast_prepared) (p_optimizer ex_contrast_prepared) 0.

(** Fixed-point numbers with one more value, which is not a number: it
    comes out of every operation it goes into, and every comparison with
    it is false. *)
Definition nan_lift (f : Z → Z → Z) (a b : option Z) : option Z :=
  match a, b with
  | Some x, Some y => Some (f x y)
  | _, _ => None
  end.

#[export] Instance fixed_point_nan : Scalar (option Z) := {
  szero := Some 0%Z;
  sone := Some fx_scale;
  sadd := nan_lift Z.add;
  ssub := nan_lift Z.sub;
  smul := nan_lift (λ a b, (a * b / fx_scale)%Z);
  sdiv := nan_lift (λ a b, (a * fx_scale / b)%Z);
  of_nat := λ n, Some (Z.of_nat n * fx_scale)%Z;
  of_Q := λ q, Some (Qnum q * fx_scale / Z.pos (Qden q))%Z;
  sleb := λ a b,
    match a, b with
    | Some x, Some y => Z.leb x y
    | _, _ => false
    end
}.




(** Differentiation by finite differences: the change of the loss when one
    value of the parameter moves by the smallest amount, value by value;
    no gradient where the loss has no value. *)
Definition ex_bump (i : nat) (t : Tensor Z) : Tensor Z :=
  mkTensor (tshape t) (alter (λ x, (x + 1)%Z) i (tdata t)).

Definition ex_numeric_autograd (loss : gmap nat (Param (R := Z)) → Result Z)
    (st : gmap nat (Param (R := Z))) (id : nat) : option (Tensor Z) :=
  p ← st !! id;
  match loss st with
  | Raise _ => None
  | Ok l0 =>
      Some (mkTensor (tshape (pvalue p))
              (map (λ i,
                      match loss (<[id := mkParam (ex_bump i (pvalue p))
                                             (requires_grad p) (pgrad p)]> st) with
                      | Ok l1 => sdiv (ssub l1 l0) 1%Z
                      | Raise _ => szero
                      end)
                   (seq 0 (length (tdata (pvalue p))))))
  end.

Definition ex_numeric_world : World (R := Z) := {|
  requests_get := requests_get ex_contrast_world;
  Image_open_bytes := Image_open_bytes ex_contrast_world;
  Image_open := Image_open ex_contrast_world;
  convert_RGB := convert_RGB ex_contrast_world;
  resample := resample ex_contrast_world;
  vgg19_pretrained := vgg19_pretrained ex_contrast_world;
  autograd := ex_numeric_autograd;
  adam_math := ex_adam_math
|}.

Definition ex_contrast_start : State (R := Z) :=
  snd (prepare ex_contrast_world ex_config initial_state).

Definition ex_numeric_after_four : State (R := Z) :=
  snd (for_each (seq 0 4)
         (iteration ex_numeric_world ex_config (p_vgg ex_contrast_prepared)
            (p_content_features ex_contrast_prepared)
            (p_style_grams ex_contrast_prepared)
            (p_target ex_contrast_prepared) (p_optimizer ex_contrast_prepared))
         ex_contrast_start).

(** * Properties *)

(** ** Tensors laid out row by row *)

Section TensorFacts.
Context {R : Type} `{Scalar R}.

Lemma flat_map_ext_in {A B} (f g : A → list B) (l : list A) :
  (∀ a, In a l → f a = g a) → flat_map f l = flat_map g l.
Proof.
  induction l as [|a l IH]; intros Hfg; simpl; [reflexivity|].
  rewrite Hfg by (left; reflexivity).
  rewrite IH; [reflexivity|]. intros b Hb. apply Hfg. right. exact Hb.
Qed.

Lemma nth_flat_map_rows {A} (g : nat → list A) (c : nat) (d : A) :
  (∀ i, length (g i) = c) →
  ∀ r start i j, i < r → j < c →
    nth (i * c + j) (flat_map g (seq start r)) d = nth j (g (start + i)) d.
Proof.
  intros Hlen. induction r as [|r IH]; intros start i j Hi Hj; [lia|].
  simpl. destruct i as [|i].
  - rewrite Nat.add_0_r. simpl. apply app_nth1. rewrite Hlen. exact Hj.
  - rewrite app_nth2 by (rewrite Hlen; simpl; lia).
    rewrite Hlen.
    replace (S i * c + j - c) with (i * c + j) by (simpl; lia).
    rewrite IH by lia. f_equal. f_equal. lia.
Qed.

Lemma nth_tabulate2 (r c : nat) (f : nat → nat → R) (i j : nat) (d : R) :
  i < r → j < c → nth (i * c + j) (tabulate2 r c f) d = f i j.
Proof.
  intros Hi Hj. unfold tabulate2.
  rewrite (nth_flat_map_rows (λ i, map (f i) (seq 0 c)) c) by
    (first [intros; rewrite length_map, length_seq; reflexivity | assumption]).
  simpl. rewrite (nth_indep _ d (f i 0)) by (rewrite length_map, length_seq; exact Hj).
  rewrite map_nth. rewrite seq_nth by exact Hj. reflexivity.
Qed.

Lemma tabulate2_ext (r c : nat) (f g : nat → nat → R) :
  (∀ i j, i < r → j < c → f i j = g i j) → tabulate2 r c f = tabulate2 r c g.
Proof.
  intros Hfg. unfold tabulate2. apply flat_map_ext_in. intros i Hi.
  apply map_ext_in. intros j Hj.
  apply in_seq in Hi. apply in_seq in Hj. apply Hfg; lia.
Qed.


Lemma fold_dot_ext (l : list nat) (f g f' g' : nat → R) (acc : R) :
  (∀ k, In k l → smul (f k) (g k) = smul (f' k) (g' k)) →
  fold_left (λ acc k, sadd acc (smul (f k) (g k))) l acc =
  fold_left (λ acc k, sadd acc (smul (f' k) (g' k))) l acc.
Proof.
  revert acc. induction l as [|k l IH]; intros acc Hk; simpl; [reflexivity|].
  rewrite Hk by (left; reflexivity).
  apply IH. intros k' Hk'. apply Hk. right. exact Hk'.
Qed.

Lemma dot_ext (n : nat) (f g f' g' : nat → R) :
  (∀ k, k < n → smul (f k) (g k) = smul (f' k) (g' k)) →
  dot n f g = dot n f' g'.
Proof.
  intros Hk. unfold dot. apply fold_dot_ext.
  intros k Hin. apply in_seq in Hin. apply Hk. lia.
Qed.

Lemma dot_comm (n : nat) (f g : nat → R) :
  (∀ a b : R, smul a b = smul b a) → dot n f g = dot n g f.
Proof. intros Hcomm. apply dot_ext. intros k _. apply Hcomm. Qed.

Lemma fold_left_through_map {A B C} (f : A → B → A) (g : C → B) (l : list C) (a : A) :
  fold_left f (map g l) a = fold_left (λ a c, f a (g c)) l a.
Proof. revert a. induction l as [|c l IH]; intros a; simpl; auto. Qed.

(** Reading two rows by index or pairing them up gives the same sum. *)
Lemma fold_nth_zip (u v : list R) (acc : R) :
  length u = length v →
  fold_left (λ acc k, sadd acc (smul (nth k u szero) (nth k v szero)))
            (seq 0 (length u)) acc =
  fold_left (λ acc ab, sadd acc (smul (fst ab) (snd ab))) (zip u v) acc.
Proof.
  revert v acc. induction u as [|a u IH]; intros [|b v] acc Hlen;
    simpl in *; try reflexivity; try discriminate.
  rewrite <- seq_shift, fold_left_through_map. simpl.
  apply IH. lia.
Qed.

Lemma nth_row (data : list R) (n i k : nat) :
  k < n → nth k (take n (drop (i * n) data)) szero = nth (i * n + k) data szero.
Proof.
  intros Hk. rewrite nth_firstn.
  destruct (Nat.ltb_spec k n) as [_|Hge]; [|lia].
  apply nth_skipn.
Qed.

Lemma length_row (data : list R) (c n i : nat) :
  length data = c * n → i < c → length (take n (drop (i * n) data)) = n.
Proof.
  intros Hlen Hi. rewrite length_take, length_drop. nia.
Qed.

Lemma gram_entry_rows (data : list R) (c n i j : nat) :
  length data = c * n → i < c → j < c →
  gram_entry n data i j =
  spec_inner (take n (drop (i * n) data)) (take n (drop (j * n) data)).
Proof.
  intros Hlen Hi Hj. unfold gram_entry, spec_inner.
  rewrite <- fold_nth_zip by (rewrite !(length_row data c); auto).
  rewrite (length_row data c) by auto.
  unfold dot. apply fold_dot_ext. intros k Hk. apply in_seq in Hk.
  rewrite !nth_row by lia. reflexivity.
Qed.

(** What [gram_matrix] computes, entry by entry. *)
Lemma gram_matrix_entries (F : Tensor R) (b c h w : nat) :
  tshape F = [b; c; h; w] →
  b * c * h * w = c * (h * w) →
  gram_matrix F = Ok (mkTensor [c; c] (tabulate2 c c (gram_entry (h * w) (tdata F)))).
Proof.
  intros Hshape Hnumel. unfold gram_matrix. rewrite Hshape.
  unfold view2. rewrite Hshape.
  destruct (decide (numel [b; c; h; w] = c * (h * w))) as [_|Hne];
    [|exfalso; apply Hne; simpl; lia].
  simpl. unfold mm. simpl.
  destruct (decide (h * w = h * w)) as [_|Hne]; [|congruence].
  f_equal. f_equal. apply tabulate2_ext. intros i j Hi Hj.
  unfold gram_entry. apply dot_ext. intros k Hk.
  f_equal. unfold at2. simpl.
  rewrite nth_tabulate2 by assumption. reflexivity.
Qed.

Lemma at2_gram (c n : nat) (data : list R) (i j : nat) :
  i < c → j < c →
  at2 (mkTensor [c; c] (tabulate2 c c (gram_entry n data))) i j = gram_entry n data i j.
Proof. intros Hi Hj. unfold at2. simpl. apply nth_tabulate2; assumption. Qed.

Lemma gram_entries_spec (data : list R) (c n : nat) :
  length data = c * n →
  tabulate2 c c (gram_entry n data) = concat (spec_gram c n data).
Proof.
  intros Hlen. unfold spec_gram, spec_rows.
  rewrite map_map, <- flat_map_concat_map. unfold tabulate2.
  apply flat_map_ext_in. intros i Hi. rewrite map_map.
  apply map_ext_in. intros j Hj.
  apply in_seq in Hi. apply in_seq in Hj.
  apply (gram_entry_rows data c); auto; lia.
Qed.

(** C3.  For a feature map of shape (1, C, H, W), [gram_matrix] returns the
    C x C matrix X · Xᵗ of the storage read as C rows of length H·W, with
    no division in it; the division by C·H·W is made in the style loss, on
    the weighted mean squared difference of the Gram matrices. *)
Theorem gram_matrix_unnormalised (F : Tensor R) (c h w : nat) :
  tshape F = [1; c; h; w] →
  wf_tensor F →
  let G := mkTensor [c; c] (concat (spec_gram c (h * w) (tdata F))) in
  gram_matrix F = Ok G ∧
  ∀ (target_features style_grams : Dict (Tensor R)) (layer : string)
    (weight style_loss m : R) (S : Tensor R),
    getitem target_features layer = Ok F →
    getitem style_grams layer = Ok S →
    mse G S = Ok m →
    style_layer_step target_features style_grams style_loss (layer, weight) =
    Ok (sadd style_loss (sdiv (smul weight m) (of_nat (c * h * w)))).
Proof.
  intros Hshape Hwf G.
  assert (HG : gram_matrix F = Ok G).
  { rewrite (gram_matrix_entries F 1 c h w Hshape) by lia.
    unfold G. rewrite gram_entries_spec; [reflexivity|].
    unfold wf_tensor in Hwf. rewrite Hwf, Hshape. simpl. lia. }
  split; [exact HG|].
  intros tf sg layer weight style_loss m S HF HS Hm.
  unfold style_layer_step. rewrite HF. simpl. rewrite HG. simpl.
  rewrite Hshape, HS. simpl. rewrite Hm. reflexivity.
Qed.

(** C8.  The Gram matrix of a feature map of shape (1, C, H, W) is its own
    transpose, in any number system whose multiplication commutes. *)
Theorem gram_matrix_symmetric (F : Tensor R) (c h w : nat) :
  (∀ a b : R, smul a b = smul b a) →
  tshape F = [1; c; h; w] →
  ∃ G, gram_matrix F = Ok G ∧ tshape G = [c; c] ∧ transpose G = Ok G.
Proof.
  intros Hcomm Hshape. eexists. split; [|split].
  - apply (gram_matrix_entries F 1 c h w Hshape). lia.
  - reflexivity.
  - unfold transpose. simpl. f_equal. f_equal.
    apply tabulate2_ext. intros j i Hj Hi.
    rewrite at2_gram by assumption.
    unfold gram_entry. apply dot_comm. exact Hcomm.
Qed.

End TensorFacts.

Lemma gram_matrix_unnormalised_witness :
  gram_matrix ex_feature =
    Ok (mkTensor [2; 2] (concat (spec_gram 2 (1 * 2) (tdata ex_feature)))) ∧
  style_layer_step [("conv1_1", ex_feature)] [("conv1_1", ex_gram)] 0%Z
    ("conv1_1", 500%Z) =
    Ok (sadd 0%Z (sdiv (smul 500%Z 4000%Z) (of_nat (2 * 1 * 2)))).
Proof.
  destruct (gram_matrix_unnormalised ex_feature 2 1 2) as [HG Hstep];
    [reflexivity | reflexivity |].
  split; [exact HG|].
  apply (Hstep _ _ _ _ _ _ ex_gram); reflexivity.
Defined.

Lemma gram_matrix_symmetric_witness :
  ∃ G, gram_matrix ex_feature = Ok G ∧ tshape G = [2; 2] ∧ transpose G = Ok G.
Proof.
  apply (gram_matrix_symmetric ex_feature 2 1 2); [|reflexivity].
  intros a b. simpl. f_equal. apply Z.mul_comm.
Defined.

(** ** Computations *)

Section MonadFacts.
Context {R : Type} `{Scalar R}.

#[local] Abbreviation State := (State (R := R)).
#[local] Abbreviation M := (M (R := R)).

Lemma bind_run {A B} (m : M A) (f : A → M B) (s : State) :
  (m ≫= f) s =
  match m s with
  | (Ok a, s') => f a s'
  | (Raise e, s') => (Raise e, s')
  end.
Proof. reflexivity. Qed.

Lemma bind_run_Ok {A B} (m : M A) (f : A → M B) (s s' : State) (b : B) :
  (m ≫= f) s = (Ok b, s') → ∃ a s1, m s = (Ok a, s1) ∧ f a s1 = (Ok b, s').
Proof.
  rewrite bind_run. destruct (m s) as [[a|e] s1]; [eauto | discriminate].
Qed.

Section Preserves.
Context (Q : State → State → Prop).
Hypothesis Q_refl : ∀ s, Q s s.
Hypothesis Q_trans : ∀ s1 s2 s3, Q s1 s2 → Q s2 s3 → Q s1 s3.

Lemma preserves_ret {A} (a : A) : preserves Q (mret a : M A).
Proof. intros s. apply Q_refl. Qed.

Lemma preserves_raise {A} (e : Exn) : preserves Q (raise e : M A).
Proof. intros s. apply Q_refl. Qed.

Lemma preserves_lift {A} (r : Result A) : preserves Q (lift r : M A).
Proof. intros s. apply Q_refl. Qed.

Lemma preserves_get_store : preserves Q get_store.
Proof. intros s. apply Q_refl. Qed.

Lemma preserves_bind {A B} (m : M A) (f : A → M B) :
  preserves Q m → (∀ a, preserves Q (f a)) → preserves Q (m ≫= f).
Proof.
  intros Hm Hf s. rewrite bind_run. specialize (Hm s).
  destruct (m s) as [[a|e] s1]; simpl in *; [|exact Hm].
  eapply Q_trans; [exact Hm | apply Hf].
Qed.

Lemma preserves_for_each {A} (l : list A) (body : A → M unit) :
  (∀ a, preserves Q (body a)) → preserves Q (for_each l body).
Proof.
  intros Hbody. induction l as [|a l IH]; simpl.
  - apply preserves_ret.
  - apply preserves_bind; [apply Hbody | intros _; exact IH].
Qed.

Lemma preserves_map_M {A B} (f : A → M B) (l : list A) :
  (∀ a, preserves Q (f a)) → preserves Q (map_M f l).
Proof.
  intros Hf. induction l as [|a l IH]; simpl.
  - apply preserves_ret.
  - apply preserves_bind; [apply Hf | intros b].
    apply preserves_bind; [exact IH | intros bs; apply preserves_ret].
Qed.

Lemma preserves_retrieved {A} (o : option A) : preserves Q (retrieved o).
Proof. destruct o; [apply preserves_ret | apply preserves_raise]. Qed.

End Preserves.

Lemma same_trace_refl (s : State) : same_trace s s.
Proof. reflexivity. Qed.

Lemma same_trace_trans (s1 s2 s3 : State) :
  same_trace s1 s2 → same_trace s2 s3 → same_trace s1 s3.
Proof. unfold same_trace. congruence. Qed.

Lemma same_tensors_refl (s : State) : same_tensors s s.
Proof. repeat split. Qed.

Lemma same_tensors_trans (s1 s2 s3 : State) :
  same_tensors s1 s2 → same_tensors s2 s3 → same_tensors s1 s3.
Proof. unfold same_tensors. intros (?&?&?) (?&?&?). repeat split; congruence. Qed.

Lemma frame_refl (target : nat) (s : State) : frame target s s.
Proof. intros _. split; reflexivity. Qed.

Lemma frame_keeps_frozen (target : nat) (s s' : State) :
  others_frozen target s → only_target_changed target s s' → others_frozen target s'.
Proof.
  intros Hfr [Hst _] id p Hid Hp. rewrite Hst in Hp by exact Hid. eauto.
Qed.

Lemma frame_trans (target : nat) (s1 s2 s3 : State) :
  frame target s1 s2 → frame target s2 s3 → frame target s1 s3.
Proof.
  intros H12 H23 Hfr. specialize (H12 Hfr).
  specialize (H23 (frame_keeps_frozen _ _ _ Hfr H12)).
  destruct H12 as [Ha Hb], H23 as [Hc Hd].
  split; intros id Hid; [rewrite Hc, Ha | rewrite Hd, Hb]; auto.
Qed.

End MonadFacts.

(** ** The primitives of the script *)

Section PrimitiveFacts.
Context {R : Type} `{Scalar R}.
Variable W : World (R := R).

Ltac relation_refl :=
  first [ apply same_tensors_refl | apply same_trace_refl | apply frame_refl ].
Ltac relation_trans :=
  first [ apply same_tensors_trans | apply same_trace_trans | apply frame_trans ].

Ltac through :=
  repeat first
    [ apply preserves_ret; relation_refl
    | apply preserves_raise; relation_refl
    | apply preserves_lift; relation_refl
    | apply preserves_get_store; relation_refl
    | apply preserves_retrieved; relation_refl
    | apply preserves_bind; [relation_trans | | intros ?]
    | apply preserves_for_each; [relation_refl | relation_trans | intros ?]
    | apply preserves_map_M; [relation_refl | relation_trans | intros ?]
    | match goal with |- preserves _ (if ?x then _ else _) => destruct x end
    | match goal with |- preserves _ (match ?x with _ => _ end) => destruct x end
    | assumption ].

#[local] Abbreviation State := (State (R := R)).
#[local] Abbreviation M := (M (R := R)).
#[local] Abbreviation Param := (Param (R := R)).
#[local] Abbreviation Adam := (Adam (R := R)).
#[local] Abbreviation Event := (Event (R := R)).
#[local] Abbreviation preserves := (preserves (R := R)).

(** Traces. *)

Lemma zero_grad_same_trace (opt : Adam) : preserves same_trace (zero_grad opt).
Proof.
  unfold zero_grad. apply preserves_for_each; [relation_refl | relation_trans |].
  intros id s. rewrite bind_run. simpl. destruct (store s !! id); reflexivity.
Qed.

Lemma backward_same_trace (loss : gmap nat Param → Result R) :
  preserves same_trace (backward W loss).
Proof. intros s. reflexivity. Qed.

Lemma adam_update_same_trace (opt : Adam) (id : nat) :
  preserves same_trace (adam_update W opt id).
Proof.
  intros s. unfold adam_update.
  destruct (store s !! id) as [p|]; [|reflexivity].
  destruct (pgrad p) as [g|]; [|reflexivity].
  destruct (adam_math W _ _ _ _) as [[value m] v]. reflexivity.
Qed.

Lemma step_same_trace (opt : Adam) : preserves same_trace (step W opt).
Proof.
  unfold step. apply preserves_for_each; [relation_refl | relation_trans |].
  intros id. apply adam_update_same_trace.
Qed.

Lemma read_param_same_state (id : nat) (s : State) :
  snd (read_param id s) = s.
Proof.
  unfold read_param. rewrite bind_run. simpl. destruct (store s !! id); reflexivity.
Qed.

(** Tensors: loading an image touches none. *)

Lemma emit_same_tensors (e : Event) : preserves same_tensors (emit e).
Proof. intros s. repeat split. Qed.

Lemma open_source_same_tensors (path : string) :
  preserves same_tensors (open_source W path).
Proof.
  unfold open_source.
  through; apply emit_same_tensors.
Qed.

Lemma load_image_same_tensors (path : string) (max_size : nat) (shape : option (list nat)) :
  preserves same_tensors (load_image W path max_size shape).
Proof.
  unfold load_image. through; apply emit_same_tensors.
Qed.

(** The frame of one pass of the loop. *)

Lemma emit_frame (target : nat) (e : Event) : preserves (frame target) (emit e).
Proof. intros s _. split; reflexivity. Qed.

Lemma read_param_frame {B} (target id : nat) (f : Tensor R → M B) :
  (∀ t, preserves (frame target) (f t)) →
  preserves (frame target) (read_param id ≫= f).
Proof.
  intros Hf. apply (preserves_bind _ (frame_trans target)); [|exact Hf].
  intros s. rewrite read_param_same_state. apply frame_refl.
Qed.

Lemma zero_grad_frame (target : nat) (lr : R) :
  preserves (frame target) (zero_grad (mkAdam [target] lr)).
Proof.
  unfold zero_grad. simpl.
  apply preserves_bind;
    [relation_trans | | intros _; apply preserves_ret; relation_refl].
  intros s _. rewrite bind_run. simpl.
  destruct (store s !! target); simpl; split; intros id Hid; try reflexivity.
  apply lookup_insert_ne. congruence.
Qed.

Lemma backward_frame (target : nat) (loss : gmap nat Param → Result R) :
  preserves (frame target) (backward W loss).
Proof.
  intros s Hfr. split; intros id Hid; [|reflexivity].
  simpl. rewrite map_lookup_imap.
  destruct (store s !! id) as [p|] eqn:Hp; [|reflexivity].
  simpl. destruct (Hfr id p Hid Hp) as [Hrg _]. rewrite Hrg. reflexivity.
Qed.

Lemma step_frame (target : nat) (lr : R) :
  preserves (frame target) (step W (mkAdam [target] lr)).
Proof.
  unfold step. simpl.
  apply preserves_bind;
    [relation_trans | | intros _; apply preserves_ret; relation_refl].
  intros s _. unfold adam_update.
  destruct (store s !! target) as [p|]; [|split; reflexivity].
  destruct (pgrad p) as [g|]; [|split; reflexivity].
  destruct (adam_math W _ _ _ _) as [[value m] v]. simpl.
  split; intros id Hid; apply lookup_insert_ne; congruence.
Qed.

End PrimitiveFacts.

(** ** One pass of the training loop *)

Section IterationFacts.
Context {R : Type} `{Scalar R}.
Variable W : World (R := R).
Variable cfg : Config (R := R).
Variable vgg : list (string * Layer (R := R)).
Variables content_features style_grams : Dict (Tensor R).
Variable target : nat.

#[local] Abbreviation State := (State (R := R)).
#[local] Abbreviation Adam := (Adam (R := R)).
#[local] Abbreviation Event := (Event (R := R)).

Lemma run_snd {A} (m : M (R := R) A) (s s' : State) (r : Result A) :
  m s = (r, s') → snd (m s) = s'.
Proof. intros ->. reflexivity. Qed.

Lemma iteration_events (optimizer : Adam) (ii : nat) (s s' : State) :
  iteration W cfg vgg content_features style_grams target optimizer ii s = (Ok (), s') →
  ∃ total_loss image,
    total_loss_at cfg vgg content_features style_grams target (store s) = Ok total_loss ∧
    trace s' = trace s ++ pass_events (show_every cfg) ii total_loss image.
Proof.
  unfold iteration. intros Hrun.
  apply bind_run_Ok in Hrun as (st & s0 & Hget & Hrun).
  inversion Hget; subst st s0; clear Hget.
  apply bind_run_Ok in Hrun as (total_loss & s0 & Hloss & Hrun).
  inversion Hloss as [[Hl Hs]]; subst s0; clear Hloss.
  apply bind_run_Ok in Hrun as ([] & s1 & Hemit & Hrun).
  inversion Hemit as [Hs1]; clear Hemit.
  apply bind_run_Ok in Hrun as ([] & s2 & Hzero & Hrun).
  apply run_snd in Hzero. pose proof (zero_grad_same_trace optimizer s1) as T2.
  rewrite Hzero in T2.
  apply bind_run_Ok in Hrun as ([] & s3 & Hback & Hrun).
  apply run_snd in Hback.
  pose proof (backward_same_trace W
    (total_loss_at cfg vgg content_features style_grams target) s2) as T3.
  rewrite Hback in T3.
  apply bind_run_Ok in Hrun as ([] & s4 & Hstep & Hrun).
  apply run_snd in Hstep. pose proof (step_same_trace W optimizer s3) as T4.
  rewrite Hstep in T4.
  assert (T : trace s4 = trace s ++ [EvAddScalar "total_loss" total_loss ii]).
  { rewrite T4, T3, T2, <- Hs1. reflexivity. }
  clear T2 T3 T4 Hzero Hback Hstep Hs1.
  unfold pass_events.
  destruct (decide (show_every cfg = 0)) as [|Hshow]; [discriminate|].
  destruct (decide (ii `mod` show_every cfg = 0)) as [Hmod|Hmod].
  - apply bind_run_Ok in Hrun as ([] & s5 & Hprint & Hrun).
    inversion Hprint as [Hs5]; clear Hprint.
    apply bind_run_Ok in Hrun as (t & s6 & Hread & Hrun).
    pose proof (read_param_same_state target s5) as T6.
    rewrite Hread in T6. simpl in T6. subst s6.
    apply bind_run_Ok in Hrun as (image & s7 & Hconv & Hrun).
    inversion Hconv as [[Hc Hs7]]; subst s7; clear Hconv.
    apply bind_run_Ok in Hrun as ([] & s8 & Himshow & Hrun).
    inversion Himshow as [Hs8]; clear Himshow.
    inversion Hrun as [Hs']; clear Hrun.
    exists total_loss, image. split; [exact Hl|].
    subst s' s8 s5. simpl. rewrite T, <- !app_assoc. reflexivity.
  - inversion Hrun; subst s'.
    exists total_loss, (mkTensor [] []). split; [exact Hl|]. exact T.
Qed.

Lemma iteration_frame (lr : R) (ii : nat) :
  preserves (frame target)
    (iteration W cfg vgg content_features style_grams target (mkAdam [target] lr) ii).
Proof.
  unfold iteration.
  apply preserves_bind; [apply frame_trans | apply preserves_get_store, frame_refl | intros st].
  apply preserves_bind; [apply frame_trans | apply preserves_lift, frame_refl | intros total_loss].
  apply preserves_bind; [apply frame_trans | apply emit_frame | intros _].
  apply preserves_bind; [apply frame_trans | apply zero_grad_frame | intros _].
  apply preserves_bind; [apply frame_trans | apply backward_frame | intros _].
  apply preserves_bind; [apply frame_trans | apply step_frame | intros _].
  destruct (decide (show_every cfg = 0)); [apply preserves_raise, frame_refl|].
  destruct (decide (ii `mod` show_every cfg = 0)); [|apply preserves_ret, frame_refl].
  apply preserves_bind; [apply frame_trans | apply emit_frame | intros _].
  apply read_param_frame. intros t.
  apply preserves_bind; [apply frame_trans | apply preserves_lift, frame_refl | intros image].
  apply preserves_bind; [apply frame_trans | apply emit_frame | intros _].
  apply emit_frame.
Qed.

End IterationFacts.

(** ** Before the loop *)

Section PrepareFacts.
Context {R : Type} `{Scalar R}.
Variable W : World (R := R).

#[local] Abbreviation State := (State (R := R)).
#[local] Abbreviation Param := (Param (R := R)).
#[local] Abbreviation Layer := (Layer (R := R)).
#[local] Abbreviation allocated := (allocated (R := R)).

Lemma allocated_nil (s : State) : allocated [] s s.
Proof.
  repeat split; auto.
  intros id Hin. apply elem_of_nil in Hin. contradiction.
Qed.

Lemma allocated_app (ids1 ids2 : list nat) (s1 s2 s3 : State) :
  allocated ids1 s1 s2 → allocated ids2 s2 s3 → allocated (ids1 ++ ids2) s1 s3.
Proof.
  intros (T1 & A1 & I1 & M1 & N1 & F1) (T2 & A2 & I2 & M2 & N2 & F2).
  repeat split.
  - congruence.
  - congruence.
  - intros id Hin. apply elem_of_app in Hin as [Hin|Hin]; auto.
  - auto.
  - intros id p Hp. apply N2 in Hp as [Hp|[Hin Hg]].
    + apply N1 in Hp as [Hp|[Hin Hg]]; [left; exact Hp|].
      right. split; [apply elem_of_app; left; exact Hin | exact Hg].
    + right. split; [apply elem_of_app; right; exact Hin | exact Hg].
  - auto.
Qed.

Lemma alloc_allocated (w : Tensor R) (s : State) :
  allocated [next_id s] s (snd (alloc (mkParam w true None) s)).
Proof.
  unfold allocated, alloc. simpl. repeat split.
  - intros id Hin. apply list_elem_of_singleton in Hin as ->.
    rewrite lookup_insert_eq. eauto.
  - intros id [p Hp]. destruct (decide (next_id s = id)) as [Heq|Hne]; [subst id|].
    + rewrite lookup_insert_eq. eauto.
    + rewrite lookup_insert_ne by exact Hne. eauto.
  - intros id p Hp. simpl in Hp. destruct (decide (next_id s = id)) as [Heq|Hne]; [subst id|].
    + rewrite lookup_insert_eq in Hp. inversion Hp; subst p.
      right. split; [apply list_elem_of_singleton; reflexivity | reflexivity].
    + rewrite lookup_insert_ne in Hp by exact Hne. left. exact Hp.
  - intros Hfresh id Hid. simpl in *. destruct (decide (next_id s = id)) as [Heq|Hne]; [subst id|].
    + lia.
    + rewrite lookup_insert_ne in Hid by exact Hne. apply Hfresh in Hid. lia.
Qed.

Lemma alloc_all_run (ws : list (Tensor R)) (s : State) :
  ∃ ids s', map_M (λ w, alloc (mkParam w true None)) ws s = (Ok ids, s') ∧
            allocated ids s s'.
Proof.
  revert s. induction ws as [|w ws IH]; intros s; simpl.
  - exists [], s. split; [reflexivity | apply allocated_nil].
  - rewrite bind_run.
    pose proof (alloc_allocated w s) as Ha. simpl alloc in *. simpl in Ha.
    unfold alloc at 1.
    destruct (IH (mkState (<[next_id s := mkParam w true None]> (store s))
                          (S (next_id s)) (adam_state s) (trace s)))
      as (ids & s' & Hrun & Hall).
    rewrite bind_run, Hrun. simpl.
    exists (next_id s :: ids), s'. split; [reflexivity|].
    apply (allocated_app [next_id s] ids _ _ _ Ha Hall).
Qed.

Lemma load_module_run (entry : string * Module_ (R := R)) (s : State) :
  ∃ layer s', load_module entry s = (Ok (fst entry, layer), s') ∧
              allocated (layer_params layer) s s'.
Proof.
  destruct entry as [name m]. unfold load_module. rewrite bind_run.
  destruct (alloc_all_run (mod_weights m) s) as (ids & s1 & Hrun & Hall).
  rewrite Hrun. exists (mkLayer ids (mod_forward m)), s1.
  split; [reflexivity | exact Hall].
Qed.

Lemma load_modules_run (modules : list (string * Module_ (R := R))) (s : State) :
  ∃ vgg s', map_M load_module modules s = (Ok vgg, s') ∧
            allocated (parameters vgg) s s'.
Proof.
  revert s. induction modules as [|entry modules IH]; intros s; simpl.
  - exists [], s. split; [reflexivity | apply allocated_nil].
  - rewrite bind_run.
    destruct (load_module_run entry s) as (layer & s1 & Hrun1 & Hall1).
    rewrite Hrun1.
    destruct (IH s1) as (vgg & s2 & Hrun2 & Hall2).
    rewrite bind_run, Hrun2.
    exists ((fst entry, layer) :: vgg), s2.
    split; [reflexivity|].
    apply (allocated_app _ _ _ _ _ Hall1 Hall2).
Qed.

Lemma freeze_param_present (ids : list nat) (id : nat) (s s' : State) :
  (∀ id, store s' !! id = freeze_param ids id <$> store s !! id) →
  is_Some (store s !! id) → is_Some (store s' !! id).
Proof. intros Hst [p Hp]. rewrite Hst, Hp. simpl. eauto. Qed.

Lemma freeze_run (ids : list nat) (s : State) :
  (∀ id, id ∈ ids → is_Some (store s !! id)) →
  ∃ s', for_each ids (set_requires_grad false) s = (Ok (), s') ∧
        trace s' = trace s ∧ next_id s' = next_id s ∧
        adam_state s' = adam_state s ∧
        ∀ id, store s' !! id = freeze_param ids id <$> store s !! id.
Proof.
  revert s. induction ids as [|a ids IH]; intros s Hin; simpl.
  - exists s. repeat split. intros id.
    destruct (store s !! id) as [[v rg g]|]; reflexivity.
  - rewrite bind_run. unfold set_requires_grad at 1. rewrite bind_run. simpl.
    destruct (Hin a) as [p Hp]; [apply list_elem_of_here|].
    rewrite Hp. simpl.
    set (s1 := mkState (<[a := mkParam (pvalue p) false (pgrad p)]> (store s))
                       (next_id s) (adam_state s) (trace s)).
    assert (H1 : ∀ id, store s1 !! id = freeze_param [a] id <$> store s !! id).
    { intros id. simpl. unfold freeze_param.
      destruct (decide (a = id)) as [->|Hne].
      - rewrite lookup_insert_eq, Hp. simpl.
        destruct (decide (id ∈ [id])) as [_|Hn]; [reflexivity|].
        exfalso. apply Hn. apply list_elem_of_here.
      - rewrite lookup_insert_ne by exact Hne.
        destruct (store s !! id) as [[v rg g]|]; [|reflexivity]. simpl.
        destruct (decide (id ∈ [a])) as [Hi|_]; [|reflexivity].
        apply list_elem_of_singleton in Hi. congruence. }
    destruct (IH s1) as (s' & Hrun & T & N & A & St).
    { intros id Hid. apply (freeze_param_present [a] id s s1 H1).
      apply Hin. apply list_elem_of_further. exact Hid. }
    exists s'. split; [exact Hrun|]. repeat split; try assumption.
    intros id. rewrite St, H1.
    destruct (store s !! id) as [[v rg g]|]; [|reflexivity].
    simpl. unfold freeze_param. simpl. f_equal. f_equal.
    destruct (decide (id ∈ ids)) as [Hi|Hi].
    + destruct (decide (id ∈ a :: ids)) as [_|Hn]; [reflexivity|].
      exfalso. apply Hn. apply list_elem_of_further. exact Hi.
    + destruct (decide (id ∈ [a])) as [Ha|Ha];
        destruct (decide (id ∈ a :: ids)) as [Hc|Hc]; try reflexivity.
      * exfalso. apply Hc. apply list_elem_of_singleton in Ha as ->.
        apply list_elem_of_here.
      * exfalso. apply elem_of_cons in Hc as [->|Hc]; [|contradiction].
        apply Ha. apply list_elem_of_here.
Qed.

End PrepareFacts.

(** ** Loading an image *)

Section LoadFacts.
Context {R : Type} `{Scalar R}.
Variable W : World (R := R).

#[local] Abbreviation State := (State (R := R)).

Lemma open_source_run (path : string) (s : State) :
  open_source W path s = (decoded W (fetch W path), with_event s (io_event path)).
Proof.
  unfold open_source, fetch, io_event, with_event, decoded.
  destruct (contains "http" path).
  - unfold mbind, M_bind, option_bind, emit. simpl.
    destruct (requests_get W path) as [content|]; simpl; [|reflexivity].
    destruct (Image_open_bytes W content); reflexivity.
  - unfold mbind, M_bind, emit. simpl.
    destruct (Image_open W path); reflexivity.
Qed.

Lemma load_image_state (path : string) (max_size : nat) (shape : option (list nat))
    (s : State) :
  snd (load_image W path max_size shape s) = with_event s (io_event path).
Proof.
  unfold load_image. rewrite bind_run, open_source_run. unfold decoded.
  destruct (fetch W path) as [image|]; [|reflexivity].
  rewrite bind_run. unfold lift.
  destruct (resize W _ _); reflexivity.
Qed.

Lemma load_image_unavailable (path : string) (max_size : nat)
    (shape : option (list nat)) (s : State) :
  unavailable W path →
  load_image W path max_size shape s =
  (Raise RetrievalError, with_event s (io_event path)).
Proof.
  unfold unavailable. intros Hnone.
  unfold load_image. rewrite bind_run, open_source_run, Hnone. reflexivity.
Qed.

(** What [load_image] returns or raises does not depend on the state. *)
Lemma load_image_result (path : string) (max_size : nat) (shape : option (list nat))
    (s s' : State) :
  fst (load_image W path max_size shape s) = fst (load_image W path max_size shape s').
Proof.
  unfold load_image. rewrite !bind_run, !open_source_run. unfold decoded.
  destruct (fetch W path) as [image|]; [|reflexivity].
  rewrite !bind_run. unfold lift.
  destruct (resize W _ _); reflexivity.
Qed.

(** The shape of what [load_image] returns. *)
Lemma load_image_shape (path : string) (max_size : nat) (shape : option (list nat))
    (s : State) (image : Image) (h w : nat) :
  fetch W path = Some image →
  resized_hw (im_height image) (im_width image) (requested_size image max_size shape)
    = Ok (h, w) →
  ∃ t, load_image W path max_size shape s = (Ok t, with_event s (io_event path)) ∧
       tshape t = [1; 3; h; w].
Proof.
  intros Hfetch Hsize.
  unfold load_image. rewrite bind_run, open_source_run, Hfetch. unfold decoded.
  rewrite bind_run. unfold lift, resize.
  unfold requested_size in Hsize.
  destruct shape as [shape|]; cbn [im_height im_width]; rewrite Hsize;
    (eexists; split; [reflexivity | reflexivity]).
Qed.

End LoadFacts.

(** ** The script as a whole *)

Section ScriptFacts.
Context {R : Type} `{Scalar R}.
Variable W : World (R := R).
Variable cfg : Config (R := R).

#[local] Abbreviation State := (State (R := R)).
#[local] Abbreviation Event := (Event (R := R)).
#[local] Abbreviation Prepared := (Prepared (R := R)).
#[local] Abbreviation initial_state := (initial_state (R := R)).

(** The network, loaded and frozen. *)
Lemma frozen_network_run :
  ∃ vgg s1 s2,
    load_vgg19 W initial_state = (Ok vgg, s1) ∧
    for_each (parameters vgg) (set_requires_grad false) s1 = (Ok (), s2) ∧
    trace s2 = [] ∧ adam_state s2 = ∅ ∧
    (∀ id p, store s2 !! id = Some p → requires_grad p = false ∧ pgrad p = None) ∧
    (∀ id, id ∈ parameters vgg → is_Some (store s2 !! id)) ∧
    (∀ id, is_Some (store s2 !! id) → id < next_id s2).
Proof.
  destruct (load_modules_run (vgg19_pretrained W) initial_state)
    as (vgg & s1 & Hload & (T1 & A1 & I1 & M1 & N1 & F1)).
  destruct (freeze_run (parameters vgg) s1 I1) as (s2 & Hfreeze & T2 & X2 & A2 & St).
  exists vgg, s1, s2. split; [exact Hload|]. split; [exact Hfreeze|].
  split; [rewrite T2, T1; reflexivity|].
  split; [rewrite A2, A1; reflexivity|].
  split; [|split].
  - intros id p Hp. rewrite St in Hp.
    destruct (store s1 !! id) as [p1|] eqn:Hp1; [|discriminate].
    simpl in Hp. inversion Hp; subst p; clear Hp.
    apply N1 in Hp1 as [Hp1|[Hin Hg]]; [simpl in Hp1; rewrite lookup_empty in Hp1; discriminate|].
    unfold freeze_param. simpl. split; [|exact Hg].
    destruct (decide (id ∈ parameters vgg)); [reflexivity | contradiction].
  - intros id Hin. apply (freeze_param_present (parameters vgg) id s1 s2 St). auto.
  - intros id [p Hp]. rewrite X2. apply F1.
    + intros id' [p' Hp']. simpl in Hp'. rewrite lookup_empty in Hp'. discriminate.
    + rewrite St in Hp. destruct (store s1 !! id); [eauto | discriminate].
Qed.

(** What holds when the preparation returns. *)
Lemma prepare_spec (p : Prepared) (s : State) :
  prepare W cfg initial_state = (Ok p, s) →
  p_optimizer p = mkAdam [p_target p] (learning_rate cfg) ∧
  others_frozen (p_target p) s ∧
  adam_state s = ∅ ∧
  (∀ id, id ∈ parameters (p_vgg p) → id ≠ p_target p ∧ is_Some (store s !! id)) ∧
  trace s = [io_event (content_path cfg); io_event (style_path cfg)].
Proof.
  destruct frozen_network_run
    as (vgg & s1 & s2 & Hload & Hfreeze & T2 & A2 & Fr & In2 & Fresh).
  unfold prepare. rewrite bind_run, Hload, bind_run, Hfreeze. intros Hrun.
  apply bind_run_Ok in Hrun as (content & s3 & Hc & Hrun).
  pose proof (load_image_state W (content_path cfg) (max_size cfg) None s2) as S3.
  rewrite Hc in S3. simpl in S3.
  apply bind_run_Ok in Hrun as (style & s4 & Hs & Hrun).
  pose proof (load_image_state W (style_path cfg) (max_size cfg)
                (Some (last2 (tshape content))) s3) as S4.
  rewrite Hs in S4. simpl in S4.
  apply bind_run_Ok in Hrun as (st & s5 & Hget & Hrun).
  inversion Hget; subst st s5; clear Hget.
  apply bind_run_Ok in Hrun as (grams & s5 & Hgram & Hrun).
  inversion Hgram as [[Hg Hs5]]; subst s5; clear Hgram.
  apply bind_run_Ok in Hrun as (target & s6 & Halloc & Hrun).
  inversion Halloc as [[Ht Hs6]]; clear Halloc.
  inversion Hrun; subst p s; clear Hrun. simpl.
  subst s6 s4 s3. unfold with_event in *. simpl in *.
  split; [reflexivity|]. split; [|split; [exact A2|split]].
  - intros id prm Hid Hprm. simpl in Hprm.
    rewrite lookup_insert_ne in Hprm by congruence. eauto.
  - intros id Hin. assert (Hlt : id < next_id s2) by auto.
    split; [lia|]. rewrite lookup_insert_ne by lia. auto.
  - rewrite T2. reflexivity.
Qed.

(** A source that cannot be had stops the script before the loop: with
    the exception of the failed retrieval, unless the content image was
    fetched and [Resize] refused it. *)
Lemma prepare_unavailable :
  unavailable W (content_path cfg) ∨ unavailable W (style_path cfg) →
  ∃ e s, prepare W cfg initial_state = (Raise e, s) ∧
       adam_state s = ∅ ∧
       (trace s = [io_event (content_path cfg)] ∨
        trace s = [io_event (content_path cfg); io_event (style_path cfg)]) ∧
       (unavailable W (content_path cfg) ∨
        is_Ok (fst (load_image W (content_path cfg) (max_size cfg) None initial_state)) →
        e = RetrievalError).
Proof.
  intros Hun.
  destruct frozen_network_run
    as (vgg & s1 & s2 & Hload & Hfreeze & T2 & A2 & _).
  unfold prepare. rewrite bind_run, Hload, bind_run, Hfreeze, bind_run.
  pose proof (load_image_state W (content_path cfg) (max_size cfg) None s2) as S3.
  pose proof (load_image_result W (content_path cfg) (max_size cfg) None
                s2 initial_state) as Hany.
  destruct (load_image W (content_path cfg) (max_size cfg) None s2)
    as [[content|e] s3] eqn:Hc; simpl in S3, Hany; subst s3.
  - destruct Hun as [Hun|Hun].
    { rewrite load_image_unavailable in Hc by exact Hun. discriminate. }
    rewrite bind_run, load_image_unavailable by exact Hun.
    eexists _, _. split; [reflexivity|]. simpl. split; [exact A2|].
    split; [right; rewrite T2; reflexivity | reflexivity].
  - eexists _, _. split; [reflexivity|]. simpl. split; [exact A2|].
    split; [left; rewrite T2; reflexivity|].
    intros [Hcontent|Hok].
    + rewrite load_image_unavailable in Hc by exact Hcontent. congruence.
    + rewrite <- Hany in Hok. contradiction.
Qed.

(** The run of a script that returns, piece by piece. *)
Lemma main_run (s : State) :
  main W cfg initial_state = (Ok (), s) →
  ∃ p s1 s2 prm image,
    prepare W cfg initial_state = (Ok p, s1) ∧
    train_loop W cfg (p_vgg p) (p_content_features p) (p_style_grams p)
      (p_target p) (p_optimizer p) s1 = (Ok (), s2) ∧
    store s2 !! p_target p = Some prm ∧
    im_convert (pvalue prm) = Ok image ∧
    s = with_event s2 (EvImsave "target.png" image).
Proof.
  unfold main. intros Hrun.
  apply bind_run_Ok in Hrun as (p & s1 & Hprep & Hrun).
  apply bind_run_Ok in Hrun as ([] & s2 & Hloop & Hrun).
  exists p, s1, s2.
  unfold export, read_param in Hrun. rewrite !bind_run in Hrun. simpl in Hrun.
  destruct (store s2 !! p_target p) as [prm|]; [|discriminate].
  simpl in Hrun. unfold lift in Hrun.
  destruct (im_convert (pvalue prm)) as [image|] eqn:Hconv; [|discriminate].
  inversion Hrun. exists prm, image. repeat split; assumption.
Qed.

(** The passes of a loop that returns, in order. *)
Lemma passes_run (p : Prepared) (l : list nat) (s s' : State) :
  for_each l (iteration W cfg (p_vgg p) (p_content_features p) (p_style_grams p)
                (p_target p) (p_optimizer p)) s = (Ok (), s') →
  ∃ passes : list (R * Tensor R),
    length passes = length l ∧
    trace s' = trace s ++
      concat (zip_with (λ ii x, pass_events (show_every cfg) ii (fst x) (snd x)) l passes).
Proof.
  revert s. induction l as [|ii l IH]; intros s Hrun; simpl in Hrun.
  - inversion Hrun. exists []. rewrite app_nil_r. auto.
  - apply bind_run_Ok in Hrun as ([] & s1 & Hpass & Hrest).
    apply iteration_events in Hpass as (total_loss & image & _ & T1).
    apply IH in Hrest as (passes & Hlen & T2).
    exists ((total_loss, image) :: passes). split; [simpl; lia|].
    simpl. rewrite T2, T1, <- app_assoc. reflexivity.
Qed.

End ScriptFacts.

(** ** The losses *)

Section LossFacts.
Context {R : Type} `{Scalar R}.

Hypothesis add_assoc : ∀ a b c : R, sadd a (sadd b c) = sadd (sadd a b) c.
Hypothesis add_0_l : ∀ a : R, sadd szero a = a.
Hypothesis add_0_r : ∀ a : R, sadd a szero = a.

Lemma fold_left_sum (l : list R) (a : R) :
  fold_left sadd l a = sadd a (spec_sum l).
Proof.
  revert a. induction l as [|x l IH]; intros a; simpl.
  - rewrite add_0_r. reflexivity.
  - rewrite IH, add_assoc. reflexivity.
Qed.

Lemma ssum_spec (l : list R) : ssum l = spec_sum l.
Proof. unfold ssum. rewrite fold_left_sum. apply add_0_l. Qed.

Lemma squares_zip (u v : list R) :
  map (λ x, smul x x) (zip_with_R ssub u v) =
  zip_with_R (λ x y, smul (ssub x y) (ssub x y)) u v.
Proof.
  revert v. induction u as [|x u IH]; intros [|y v]; simpl; try reflexivity.
  rewrite IH. reflexivity.
Qed.

Lemma mse_spec (a b : Tensor R) : mse a b = spec_mse a b.
Proof.
  unfold mse, spec_mse, tsub.
  destruct (decide (tshape a = tshape b)); [|reflexivity].
  simpl. unfold tmean, tsquare. simpl.
  rewrite ssum_spec, squares_zip. reflexivity.
Qed.

Lemma getitem_wf (features : Dict (Tensor R)) (key : string) (F : Tensor R) :
  features_wf features → getitem features key = Ok F → wf_tensor F.
Proof.
  unfold features_wf, getitem.
  induction features as [|[k v] d IH]; simpl; intros Hwf Hget; [discriminate|].
  inversion Hwf as [|? ? Hv Hd]; subst.
  destruct (decide (key = k)); [inversion Hget; subst; exact Hv | apply IH; assumption].
Qed.

(** Where [gram_matrix] returns, it returns X · Xᵗ of the rows of the
    feature map. *)
Lemma gram_matrix_spec (F G : Tensor R) :
  wf_tensor F → gram_matrix F = Ok G → spec_gram_matrix F = Ok G.
Proof.
  intros Hwf HG. unfold spec_gram_matrix.
  pose proof HG as HG0. unfold gram_matrix in HG0.
  destruct (tshape F) as [|b [|c [|h [|w [|]]]]] eqn:Hshape; try discriminate.
  unfold view2 in HG0. rewrite Hshape in HG0.
  destruct (decide (numel [b; c; h; w] = c * (h * w))) as [Hnumel|]; [|discriminate].
  clear HG0.
  rewrite (gram_matrix_entries F b c h w Hshape) in HG by (simpl in Hnumel; lia).
  inversion HG. rewrite gram_entries_spec; [reflexivity|].
  unfold wf_tensor in Hwf. rewrite Hwf, Hshape. exact Hnumel.
Qed.

Lemma style_layer_step_spec (target_features style_grams : Dict (Tensor R))
    (style_loss : R) (entry : string * R) (r : R) :
  features_wf target_features →
  style_layer_step target_features style_grams style_loss entry = Ok r →
  ∃ term, spec_style_term target_features style_grams entry = Ok term ∧
          r = sadd style_loss term.
Proof.
  intros Hwf. destruct entry as [layer weight].
  unfold style_layer_step, spec_style_term. cbn [fst snd].
  destruct (getitem target_features layer) as [F|] eqn:HF; [|discriminate].
  cbn [mbind Result_bind].
  destruct (gram_matrix F) as [G|] eqn:HG; [|discriminate].
  rewrite (gram_matrix_spec F G (getitem_wf _ _ _ Hwf HF) HG).
  cbn [mbind Result_bind].
  destruct (tshape F) as [|? [|c [|h [|w [|]]]]]; try discriminate.
  destruct (getitem style_grams layer) as [S|]; [|discriminate].
  cbn [mbind Result_bind].
  rewrite mse_spec. destruct (spec_mse G S) as [m|]; [|discriminate].
  cbn [mbind Result_bind mret Result_ret].
  intros Hr. inversion Hr. eexists. split; reflexivity.
Qed.

Lemma style_loss_spec (target_features style_grams : Dict (Tensor R))
    (style_weights : Dict R) (style_loss r : R) :
  features_wf target_features →
  fold_result (style_layer_step target_features style_grams) style_weights style_loss
    = Ok r →
  ∃ terms,
    map_result (spec_style_term target_features style_grams) style_weights = Ok terms ∧
    r = sadd style_loss (spec_sum terms).
Proof.
  intros Hwf. revert style_loss.
  induction style_weights as [|entry l IH]; intros style_loss; simpl.
  - intros Hr. inversion Hr. exists []. rewrite add_0_r. auto.
  - destruct (style_layer_step target_features style_grams style_loss entry)
      as [acc|] eqn:Hstep; [|discriminate].
    apply style_layer_step_spec in Hstep as (term & Hterm & ->); [|exact Hwf].
    cbn [mbind Result_bind]. intros Hrest.
    apply IH in Hrest as (terms & Hterms & ->).
    exists (term :: terms). rewrite Hterm. cbn [mbind Result_bind].
    rewrite Hterms. cbn [mbind Result_bind mret Result_ret].
    split; [reflexivity|]. simpl. rewrite add_assoc. reflexivity.
Qed.

Lemma total_loss_of_spec (target_features content_features style_grams : Dict (Tensor R))
    (style_weights : Dict R) (content_weight style_weight total_loss : R) :
  features_wf target_features →
  total_loss_of target_features content_features style_grams
    style_weights content_weight style_weight = Ok total_loss →
  spec_total_loss target_features content_features style_grams
    style_weights content_weight style_weight = Ok total_loss.
Proof.
  intros Hwf. unfold total_loss_of, spec_total_loss, content_loss_of.
  destruct (getitem target_features "conv4_2") as [t|]; [|discriminate].
  cbn [mbind Result_bind].
  destruct (getitem content_features "conv4_2") as [c|]; [|discriminate].
  cbn [mbind Result_bind].
  rewrite mse_spec. destruct (spec_mse t c) as [content_loss|]; [|discriminate].
  cbn [mbind Result_bind].
  unfold style_loss_of.
  destruct (fold_result _ style_weights szero) as [style_loss|] eqn:Hstyle;
    [|discriminate].
  apply style_loss_spec in Hstyle as (terms & Hterms & ->); [|exact Hwf].
  rewrite Hterms. cbn [mbind Result_bind mret Result_ret].
  rewrite add_0_l. auto.
Qed.

(** C2.  At every pass of the loop the total loss is
    contentWeight * contentLoss + styleWeight * styleLoss, with contentLoss
    the mean squared error at conv4_2 and styleLoss the sum over the style
    layers of weight * (mean squared error between X · Xᵗ of the target's
    feature map and the style Gram matrix) / (C·H·W); and that is the
    value the pass sends to the writer.  The feature maps are tensors: each
    has as many values as its shape says. *)
Theorem total_loss_formula (W : World (R := R)) (cfg : Config (R := R))
    (vgg : list (string * Layer (R := R)))
    (content_features style_grams : Dict (Tensor R))
    (target : nat) (optimizer : Adam (R := R)) (ii : nat)
    (s s' : State (R := R)) (p : Param (R := R)) :
  store s !! target = Some p →
  features_wf (get_features (store s) (pvalue p) vgg None) →
  iteration W cfg vgg content_features style_grams target optimizer ii s = (Ok (), s') →
  ∃ total_loss,
    total_loss_at cfg vgg content_features style_grams target (store s) = Ok total_loss ∧
    spec_total_loss (get_features (store s) (pvalue p) vgg None)
      content_features style_grams
      (style_weights cfg) (content_weight cfg) (style_weight cfg) = Ok total_loss ∧
    EvAddScalar "total_loss" total_loss ii ∈ trace s'.
Proof.
  intros Hp Hwf Hrun.
  apply iteration_events in Hrun as (total_loss & image & Hloss & Htrace).
  exists total_loss. split; [exact Hloss|]. split.
  - unfold total_loss_at in Hloss. rewrite Hp in Hloss.
    apply total_loss_of_spec; assumption.
  - rewrite Htrace. apply elem_of_app. right. apply list_elem_of_here.
Qed.

End LossFacts.

(** ** Where an image comes from *)

Lemma append_cons (a : Ascii.ascii) (s t : string) :
  String a s +:+ t = String a (s +:+ t).
Proof. reflexivity. Qed.

Lemma starts_with_spec (needle hay : string) :
  starts_with needle hay = true ↔ ∃ post, hay = needle +:+ post.
Proof.
  revert hay. induction needle as [|a needle IH]; intros hay; simpl.
  - split; [intros _; exists hay; reflexivity | reflexivity].
  - destruct hay as [|b hay].
    + split; [discriminate|]. intros (post & Hpost).
      rewrite append_cons in Hpost. discriminate.
    + destruct (decide (a = b)) as [Heq|Hne].
      * subst b. rewrite IH. split.
        -- intros (post & ->). exists post. reflexivity.
        -- intros (post & Hpost). rewrite append_cons in Hpost.
           exists post. congruence.
      * split; [discriminate|]. intros (post & Hpost).
        rewrite append_cons in Hpost. congruence.
Qed.

Lemma contains_spec (needle hay : string) :
  contains needle hay = true ↔ ∃ pre post, hay = pre +:+ needle +:+ post.
Proof.
  induction hay as [|b hay IH]; simpl.
  - rewrite orb_false_r, starts_with_spec. split.
    + intros (post & Hp). exists "", post. exact Hp.
    + intros ([|c pre] & post & Hp); [exists post; exact Hp|].
      rewrite append_cons in Hp. discriminate.
  - rewrite orb_true_iff, starts_with_spec, IH. split.
    + intros [(post & Hp)|(pre & post & Hp)].
      * exists "", post. exact Hp.
      * exists (String b pre), post. rewrite append_cons, Hp. reflexivity.
    + intros ([|c pre] & post & Hp).
      * left. exists post. exact Hp.
      * right. exists pre, post. rewrite append_cons in Hp. congruence.
Qed.

Section SourceFacts.
Context {R : Type} `{Scalar R}.
Variable W : World (R := R).

(** C9.  A source is fetched over the network exactly when "http" occurs
    somewhere in it, a local path with that text included, and then no
    local file is opened; any other source is opened as a local file. *)
Theorem load_image_source_route (path : string) (max_size : nat)
    (shape : option (list nat)) (s : State (R := R)) :
  let occurs := ∃ pre post, path = pre +:+ "http" +:+ post in
  let s' := snd (load_image W path max_size shape s) in
  (occurs →
     trace s' = trace s ++ [EvHttpGet path] ∧
     open_source W path s =
       (decoded W (requests_get W path ≫= Image_open_bytes W),
        with_event s (EvHttpGet path))) ∧
  (¬ occurs →
     trace s' = trace s ++ [EvOpenFile path] ∧
     open_source W path s =
       (decoded W (Image_open W path), with_event s (EvOpenFile path))).
Proof.
  intros occurs s'. unfold s'. rewrite load_image_state, open_source_run.
  unfold with_event, io_event, fetch. simpl.
  pose proof (contains_spec "http" path) as Hspec. fold occurs in Hspec.
  destruct (contains "http" path); split.
  - intros _. split; reflexivity.
  - intros Hno. exfalso. apply Hno, Hspec. reflexivity.
  - intros Hocc. apply Hspec in Hocc. discriminate.
  - intros _. split; reflexivity.
Qed.

(** C6.  A source that cannot be fetched or decoded makes [load_image]
    raise, and the script ends there, where the preparation ends: the loop
    is never entered.  The exception the script ends with is that of the
    retrieval whenever [load_image] was called on the source, which is
    when the source is the content image or the content image has
    loaded. *)
Theorem unavailable_source_aborts (path : string) :
  unavailable W path →
  (∀ max_size shape (s : State (R := R)),
     load_image W path max_size shape s =
     (Raise RetrievalError, with_event s (io_event path))) ∧
  (∀ cfg : Config (R := R),
     content_path cfg = path ∨ style_path cfg = path →
     ∃ e s, prepare W cfg initial_state = (Raise e, s) ∧
          main W cfg initial_state = (Raise e, s) ∧
          adam_state s = ∅ ∧
          (trace s = [io_event (content_path cfg)] ∨
           trace s = [io_event (content_path cfg); io_event (style_path cfg)]) ∧
          (content_path cfg = path ∨
           is_Ok (fst (load_image W (content_path cfg) (max_size cfg) None
                         initial_state)) →
           e = RetrievalError)).
Proof.
  intros Hun. split.
  - intros max_size shape s. apply load_image_unavailable. exact Hun.
  - intros cfg Hpath.
    destruct (prepare_unavailable W cfg) as (e & s & Hprep & Hadam & Htrace & He).
    { destruct Hpath as [->| ->]; [left | right]; exact Hun. }
    exists e, s. split; [exact Hprep|]. split; [|split; [|split]]; try assumption.
    + unfold main. rewrite bind_run, Hprep. reflexivity.
    + intros [Hcontent|Hok]; apply He; [left | right; exact Hok].
      rewrite Hcontent. exact Hun.
Qed.

End SourceFacts.

(** ** What the outside sees of a run *)

Section TraceFacts.
Context {R : Type} `{Scalar R}.

#[local] Abbreviation Event := (Event (R := R)).

Lemma scalars_app (a b : list Event) : scalars (a ++ b) = scalars a ++ scalars b.
Proof. apply omap_app. Qed.

Lemma scalar_steps_app (a b : list Event) :
  scalar_steps (a ++ b) = scalar_steps a ++ scalar_steps b.
Proof. apply omap_app. Qed.

Lemma figure_steps_app (a b : list Event) :
  figure_steps (a ++ b) = figure_steps a ++ figure_steps b.
Proof. apply omap_app. Qed.

Lemma prints_app (a b : list Event) : prints (a ++ b) = prints a ++ prints b.
Proof. apply omap_app. Qed.

Lemma exports_app (a b : list Event) : exports (a ++ b) = exports a ++ exports b.
Proof. apply omap_app. Qed.

(** The two loads show nothing to the writer, the console or the exporter. *)
Lemma loads_unseen (a b : string) :
  let loads : list Event := [io_event a; io_event b] in
  scalars loads = [] ∧ scalar_steps loads = [] ∧ figure_steps loads = [] ∧
  prints loads = [] ∧ exports loads = [].
Proof.
  unfold io_event.
  destruct (contains "http" a); destruct (contains "http" b); repeat split.
Qed.

Variable n : nat.

#[local] Abbreviation pass :=
  (λ (ii : nat) (x : R * Tensor R), pass_events n ii (fst x) (snd x)).

Lemma passes_scalars (l : list nat) (passes : list (R * Tensor R)) :
  length passes = length l →
  scalars (concat (zip_with pass l passes)) = zip l (map fst passes).
Proof.
  revert passes. induction l as [|ii l IH]; intros [|x passes] Hlen;
    simpl in *; try reflexivity; try discriminate.
  rewrite scalars_app, IH by lia.
  unfold pass_events. destruct (decide (ii `mod` n = 0)); reflexivity.
Qed.

Lemma passes_scalar_steps (l : list nat) (passes : list (R * Tensor R)) :
  length passes = length l →
  scalar_steps (concat (zip_with pass l passes)) = l.
Proof.
  revert passes. induction l as [|ii l IH]; intros [|x passes] Hlen;
    simpl in *; try reflexivity; try discriminate.
  rewrite scalar_steps_app, IH by lia.
  unfold pass_events. destruct (decide (ii `mod` n = 0)); reflexivity.
Qed.

Lemma passes_figure_steps (l : list nat) (passes : list (R * Tensor R)) :
  length passes = length l →
  figure_steps (concat (zip_with pass l passes)) = filter (λ ii, ii `mod` n = 0) l.
Proof.
  revert passes. induction l as [|ii l IH]; intros [|x passes] Hlen;
    simpl in *; try reflexivity; try discriminate.
  rewrite figure_steps_app, IH by lia.
  unfold pass_events. rewrite filter_cons.
  destruct (decide (ii `mod` n = 0)); reflexivity.
Qed.

Lemma passes_prints (l : list nat) (passes : list (R * Tensor R)) :
  length passes = length l →
  prints (concat (zip_with pass l passes)) =
  map snd (filter (λ iv, fst iv `mod` n = 0) (zip l (map fst passes))).
Proof.
  revert passes. induction l as [|ii l IH]; intros [|x passes] Hlen;
    simpl in *; try reflexivity; try discriminate.
  rewrite prints_app, IH by lia.
  unfold pass_events. rewrite filter_cons. simpl.
  destruct (decide (ii `mod` n = 0)); reflexivity.
Qed.

Lemma passes_exports (l : list nat) (passes : list (R * Tensor R)) :
  exports (concat (zip_with pass l passes)) = [].
Proof.
  revert passes. induction l as [|ii l IH]; intros [|x passes];
    simpl in *; try reflexivity.
  rewrite exports_app, IH.
  unfold pass_events. destruct (decide (ii `mod` n = 0)); reflexivity.
Qed.

End TraceFacts.

Section RunFacts.
Context {R : Type} `{Scalar R}.
Variable W : World (R := R).

#[local] Abbreviation State := (State (R := R)).
#[local] Abbreviation Config := (Config (R := R)).
#[local] Abbreviation initial_state := (initial_state (R := R)).

(** Everything a run that returns has sent out. *)
Lemma main_trace (cfg : Config) (s : State) :
  main W cfg initial_state = (Ok (), s) →
  ∃ (passes : list (R * Tensor R)) (prm : Param (R := R)) (image : Tensor R),
    length passes = steps cfg + 1 ∧
    im_convert (pvalue prm) = Ok image ∧
    trace s =
      [io_event (content_path cfg); io_event (style_path cfg)] ++
      concat (zip_with (λ ii x, pass_events (show_every cfg) ii (fst x) (snd x))
                (seq 0 (steps cfg + 1)) passes) ++
      [EvImsave "target.png" image].
Proof.
  intros Hrun.
  apply main_run in Hrun as (p & s1 & s2 & prm & image & Hprep & Hloop & _ & Hconv & ->).
  apply prepare_spec in Hprep as (_ & _ & _ & _ & T1).
  apply passes_run in Hloop as (passes & Hlen & T2).
  exists passes, prm, image. rewrite length_seq in Hlen.
  split; [exact Hlen|]. split; [exact Hconv|].
  simpl. rewrite T2, T1, <- app_assoc. reflexivity.
Qed.

Lemma is_Ok_run {A} (m : M (R := R) A) (s : State) :
  is_Ok (fst (m s)) → ∃ a, m s = (Ok a, snd (m s)).
Proof. destruct (m s) as [[a|e] s']; simpl; [eauto | contradiction]. Qed.

(** A run that returns, in full: the preparation, the loop with its
    passes, and the export of the target as the loop left it. *)
Lemma main_parts (cfg : Config) (s : State) :
  main W cfg initial_state = (Ok (), s) →
  ∃ (p : Prepared (R := R)) (s1 s2 : State) (passes : list (R * Tensor R))
    (prm : Param (R := R)) (image : Tensor R),
    prepare W cfg initial_state = (Ok p, s1) ∧
    train_loop W cfg (p_vgg p) (p_content_features p) (p_style_grams p)
      (p_target p) (p_optimizer p) s1 = (Ok (), s2) ∧
    length passes = steps cfg + 1 ∧
    trace s2 =
      [io_event (content_path cfg); io_event (style_path cfg)] ++
      concat (zip_with (λ ii x, pass_events (show_every cfg) ii (fst x) (snd x))
                (seq 0 (steps cfg + 1)) passes) ∧
    store s2 !! p_target p = Some prm ∧
    im_convert (pvalue prm) = Ok image ∧
    s = with_event s2 (EvImsave "target.png" image) ∧
    trace s =
      [io_event (content_path cfg); io_event (style_path cfg)] ++
      concat (zip_with (λ ii x, pass_events (show_every cfg) ii (fst x) (snd x))
                (seq 0 (steps cfg + 1)) passes) ++
      [EvImsave "target.png" image].
Proof.
  intros Hrun.
  apply main_run in Hrun
    as (p & s1 & s2 & prm & image & Hprep & Hloop & Hprm & Hconv & ->).
  pose proof (prepare_spec _ _ _ _ Hprep) as (_ & _ & _ & _ & T1).
  pose proof (passes_run _ _ _ _ _ _ Hloop) as (passes & Hlen & T2).
  rewrite length_seq in Hlen.
  exists p, s1, s2, passes, prm, image.
  split; [exact Hprep|]. split; [exact Hloop|]. split; [exact Hlen|].
  split; [rewrite T2, T1; reflexivity|]. split; [exact Hprm|].
  split; [exact Hconv|]. split; [reflexivity|].
  unfold with_event. cbn [trace]. rewrite T2, T1, <- app_assoc. reflexivity.
Qed.

(** C5.  With the default configuration a run that returns has made
    exactly 2002 passes of the loop, with the indices 0 to 2001 in order,
    and then saved the final image: its trace is the two loads, the events
    of the 2002 passes, and the export of [im_convert] of the target as the
    last pass left it. *)
Theorem default_run_makes_2002_passes :
  is_Ok (fst (main W default_config initial_state)) →
  ∃ (p : Prepared (R := R)) (s1 s2 : State) (passes : list (R * Tensor R))
    (prm : Param (R := R)) (image : Tensor R),
    prepare W default_config initial_state = (Ok p, s1) ∧
    train_loop W default_config (p_vgg p) (p_content_features p) (p_style_grams p)
      (p_target p) (p_optimizer p) s1 = (Ok (), s2) ∧
    length passes = 2002 ∧
    trace s2 =
      [EvOpenFile "images/pisa.jpeg"; EvOpenFile "images/ship_at_sea.jpeg"] ++
      concat (zip_with (λ ii x, pass_events 200 ii (fst x) (snd x))
                (seq 0 2002) passes) ∧
    store s2 !! p_target p = Some prm ∧
    im_convert (pvalue prm) = Ok image ∧
    snd (main W default_config initial_state) =
      with_event s2 (EvImsave "target.png" image) ∧
    trace (snd (main W default_config initial_state)) =
      [EvOpenFile "images/pisa.jpeg"; EvOpenFile "images/ship_at_sea.jpeg"] ++
      concat (zip_with (λ ii x, pass_events 200 ii (fst x) (snd x))
                (seq 0 2002) passes) ++
      [EvImsave "target.png" image].
Proof.
  intros Hok. apply is_Ok_run in Hok as ([] & Hrun).
  destruct (main_parts default_config _ Hrun)
    as (p & s1 & s2 & passes & prm & image
        & Hprep & Hloop & Hlen & Hloops & Hprm & Hconv & Hs & Htrace).
  exists p, s1, s2, passes, prm, image.
  split; [exact Hprep|]. split; [exact Hloop|]. split; [exact Hlen|].
  split; [exact Hloops|]. split; [exact Hprm|]. split; [exact Hconv|].
  split; [exact Hs | exact Htrace].
Qed.

(** What the writer, the console and the exporter have received from a
    run that returns. *)
Lemma main_projections (cfg : Config) (s : State) :
  main W cfg initial_state = (Ok (), s) →
  scalar_steps (trace s) = seq 0 (steps cfg + 1) ∧
  map fst (scalars (trace s)) = seq 0 (steps cfg + 1) ∧
  figure_steps (trace s) =
    filter (λ ii, ii `mod` show_every cfg = 0) (seq 0 (steps cfg + 1)) ∧
  prints (trace s) =
    map snd (filter (λ iv, fst iv `mod` show_every cfg = 0) (scalars (trace s))) ∧
  ∃ (prm : Param (R := R)) (image : Tensor R),
    im_convert (pvalue prm) = Ok image ∧ exports (trace s) = [image].
Proof.
  intros Hrun.
  apply main_trace in Hrun as (passes & prm & image & Hlen & Hconv & Htrace).
  assert (Hlen' : length passes = length (seq 0 (steps cfg + 1)))
    by (rewrite length_seq; exact Hlen).
  destruct (loads_unseen (R := R) (content_path cfg) (style_path cfg))
    as (L1 & L2 & L3 & L4 & L5).
  assert (Hsc : scalars (trace s) = zip (seq 0 (steps cfg + 1)) (map fst passes)).
  { rewrite Htrace, !scalars_app, L1, (passes_scalars _ _ _ Hlen').
    simpl. apply app_nil_r. }
  split; [|split; [|split; [|split]]].
  - rewrite Htrace, !scalar_steps_app, L2, (passes_scalar_steps _ _ _ Hlen').
    simpl. apply app_nil_r.
  - rewrite Hsc. apply fst_zip. rewrite length_map. lia.
  - rewrite Htrace, !figure_steps_app, L3, (passes_figure_steps _ _ _ Hlen').
    simpl. apply app_nil_r.
  - rewrite Hsc, Htrace, !prints_app, L4, (passes_prints _ _ _ Hlen').
    simpl. apply app_nil_r.
  - exists prm, image. split; [exact Hconv|].
    rewrite Htrace, !exports_app, L5, passes_exports. reflexivity.
Qed.

(** C10.  In a run of the default configuration that returns, the writer
    has received the total loss at every index from 0 to 2001; the figure
    only at the multiples of 200; and the console has printed the losses
    of exactly those passes. *)
Theorem scalar_at_every_pass :
  is_Ok (fst (main W default_config initial_state)) →
  let tr := trace (snd (main W default_config initial_state)) in
  scalar_steps tr = seq 0 2002 ∧
  map fst (scalars tr) = seq 0 2002 ∧
  figure_steps tr = [0; 200; 400; 600; 800; 1000; 1200; 1400; 1600; 1800; 2000] ∧
  prints tr = map snd (filter (λ iv, fst iv `mod` 200 = 0) (scalars tr)).
Proof.
  intros Hok tr. apply is_Ok_run in Hok as ([] & Hrun).
  apply main_projections in Hrun as (Hsteps & Hscalars & Hfigures & Hprints & _).
  split; [exact Hsteps|]. split; [exact Hscalars|]. split; [|exact Hprints].
  unfold tr. rewrite Hfigures. vm_compute. reflexivity.
Qed.

End RunFacts.

(** ** The exported image *)

Section ExportFacts.
Context {R : Type} `{Scalar R}.

(** The order of the numbers: any two of them compare, 0 and 1 are numbers
    and 0 ≤ 1; and un-normalising a number gives a number. *)
Hypothesis numbers_total : ∀ a b : R,
  is_nan a = false → is_nan b = false → sleb a b = true ∨ sleb b a = true.
Hypothesis zero_le_one : sleb szero sone = true.
Hypothesis zero_number : is_nan szero = false.
Hypothesis one_number : is_nan sone = false.
Hypothesis unnormalised_number : ∀ (x : R) (k : nat),
  k < 3 → is_nan x = false →
  is_nan (sadd (smul x (nth k norm_std szero)) (nth k norm_mean szero)) = false.






End ExportFacts.

(** ** The frozen network *)

Section FrameFacts.
Context {R : Type} `{Scalar R}.
Variable W : World (R := R).
Variable cfg : Config (R := R).

(** C4.  After any number of passes of the loop, the store differs from
    the one the loop started with at the target image only, the optimiser
    holds state for the target only, and every parameter of the network
    is as it was frozen: no gradient asked for, none received. *)
Theorem feature_extractor_frozen (p : Prepared (R := R)) (s1 : State (R := R)) :
  prepare W cfg initial_state = (Ok p, s1) →
  ∀ passes : nat,
    let s2 :=
      snd (for_each (seq 0 passes)
             (iteration W cfg (p_vgg p) (p_content_features p) (p_style_grams p)
                (p_target p) (p_optimizer p)) s1) in
    (∀ id, id ≠ p_target p → store s2 !! id = store s1 !! id) ∧
    (∀ id, id ≠ p_target p → adam_state s2 !! id = None) ∧
    (∀ id, id ∈ parameters (p_vgg p) →
       id ≠ p_target p ∧
       ∃ prm, store s2 !! id = Some prm ∧
              requires_grad prm = false ∧ pgrad prm = None).
Proof.
  intros Hprep passes s2.
  apply prepare_spec in Hprep as (Hopt & Hfrozen & Hadam & Hparams & _).
  assert (Hframe : only_target_changed (p_target p) s1 s2).
  { unfold s2. rewrite Hopt.
    apply (preserves_for_each (frame (p_target p))); [apply frame_refl | apply frame_trans | | exact Hfrozen].
    intros ii. apply iteration_frame. }
  destruct Hframe as [Hstore Hstate].
  split; [exact Hstore|]. split.
  - intros id Hid. rewrite Hstate by exact Hid. rewrite Hadam. apply lookup_empty.
  - intros id Hin. destruct (Hparams id Hin) as [Hid [prm Hprm]].
    split; [exact Hid|]. exists prm. rewrite Hstore by exact Hid.
    split; [exact Hprm|]. apply (Hfrozen id prm Hid Hprm).
Qed.

End FrameFacts.

(** ** The size of a loaded image *)

(** [Resize] with an int: the smaller edge gets the size, and a size of 0
    is refused. *)
Lemma resized_hw_int (h w size : nat) :
  0 < h → 0 < w → 0 < size →
  resized_hw h w (SizeInt size) =
  Ok (if decide (w ≤ h) then (size * h / w, size) else (size, size * w / h)).
Proof.
  intros Hh Hw Hsize. unfold resized_hw, requested_hw.
  destruct (decide (w ≤ h)) as [Hle|Hgt]; simpl;
    match goal with
    | |- context [decide (?P ∨ ?Q)] => destruct (decide (P ∨ Q)) as [[Hz|Hz]|]
    end; try reflexivity; try lia; exfalso.
  - assert (size ≤ size * h / w) by (apply Nat.div_le_lower_bound; nia). lia.
  - assert (size ≤ size * w / h) by (apply Nat.div_le_lower_bound; nia). lia.
Qed.

Lemma resized_hw_zero (h w : nat) : resized_hw h w (SizeInt 0) = Raise ValueError.
Proof.
  unfold resized_hw, requested_hw.
  destruct (decide (w ≤ h)); simpl; try reflexivity.
  match goal with
  | |- context [decide (?P ∨ ?Q)] => destruct (decide (P ∨ Q)) as [|Hno]
  end; [reflexivity | exfalso; apply Hno; auto].
Qed.

(** No resized image is empty, and a (h, w) without a 0 is what the image
    gets. *)
Lemma resized_hw_positive (h w : nat) (size : SizeArg) (h' w' : nat) :
  resized_hw h w size = Ok (h', w') → 0 < h' ∧ 0 < w'.
Proof.
  unfold resized_hw.
  destruct (requested_hw h w size) as [[h1 w1]|e]; simpl; [|discriminate].
  destruct (decide (h1 = 0 ∨ w1 = 0)) as [|Hno]; [discriminate|].
  intros Heq. inversion Heq; subst h' w'. lia.
Qed.

Lemma resized_hw_pair (h w h' w' : nat) :
  0 < h' → 0 < w' → resized_hw h w (SizeSeq [h'; w']) = Ok (h', w').
Proof.
  intros Hh Hw. unfold resized_hw. simpl.
  destruct (decide (h' = 0 ∨ w' = 0)) as [[Hz|Hz]|]; [lia | lia | reflexivity].
Qed.

Section ResizeFacts.
Context {R : Type} `{Scalar R}.
Variable W : World (R := R).

(** Without a target shape, it is the smaller side of the image that is
    brought to min(max_size, larger side); the larger side follows the
    aspect ratio, and so passes it whenever the image is not square. *)
Lemma load_image_matches_smaller_edge (path : string) (max_size : nat)
    (s : State (R := R)) (image : Image) :
  fetch W path = Some image →
  0 < im_width image → 0 < im_height image → 0 < max_size →
  ∃ t h w,
    fst (load_image W path max_size None s) = Ok t ∧
    tshape t = [1; 3; h; w] ∧
    h `min` w = max_size `min` (im_width image `max` im_height image).
Proof.
  intros Hfetch Hw Hh Hmax.
  set (size := max_size `min` (im_width image `max` im_height image)).
  assert (Hsize : 0 < size) by (unfold size; lia).
  assert (Hreq : requested_size image max_size None = SizeInt size).
  { unfold requested_size, size. destruct (decide _); f_equal; lia. }
  pose proof (resized_hw_int (im_height image) (im_width image) size Hh Hw Hsize)
    as Hres.
  rewrite <- Hreq in Hres.
  destruct (decide (im_width image ≤ im_height image)) as [Hle|Hgt].
  - destruct (load_image_shape W path max_size None s image _ _ Hfetch Hres)
      as (t & Hrun & Hshape).
    exists t, (size * im_height image / im_width image), size.
    rewrite Hrun. split; [reflexivity|]. split; [exact Hshape|].
    apply Nat.min_r. apply Nat.div_le_lower_bound; nia.
  - destruct (load_image_shape W path max_size None s image _ _ Hfetch Hres)
      as (t & Hrun & Hshape).
    exists t, size, (size * im_width image / im_height image).
    rewrite Hrun. split; [reflexivity|]. split; [exact Hshape|].
    apply Nat.min_l. apply Nat.div_le_lower_bound; nia.
Qed.

End ResizeFacts.

(** C1.  An 800 x 600 image loaded with the limit 400 comes back 533 wide
    and 400 high: its larger side is 533, not min(400, 800) = 400.  A
    300 x 200 image, within the limit, comes back 450 x 300: enlarged. *)
Theorem load_image_larger_side_exceeds_limit :
  (∃ t, fst (load_image ex_large_world "images/pisa.jpeg" 400 None initial_state) = Ok t ∧
        tshape t = [1; 3; 400; 533]) ∧
  (∃ t, fst (load_image ex_medium_world "images/pisa.jpeg" 400 None initial_state) = Ok t ∧
        tshape t = [1; 3; 300; 450]).
Proof.
  split.
  - destruct (load_image_shape ex_large_world "images/pisa.jpeg" 400 None
                initial_state (ex_image 800 600) 400 533) as (t & Hrun & Hshape);
      [reflexivity | vm_compute; reflexivity |].
    exists t. rewrite Hrun. auto.
  - destruct (load_image_shape ex_medium_world "images/pisa.jpeg" 400 None
                initial_state (ex_image 300 200) 300 450) as (t & Hrun & Hshape);
      [reflexivity | vm_compute; reflexivity |].
    exists t. rewrite Hrun. auto.
Qed.

(** ** The script in the small world *)

Lemma fixed_point_add_assoc (a b c : Z) : sadd a (sadd b c) = sadd (sadd a b) c.
Proof. apply Z.add_assoc. Qed.


Lemma total_loss_formula_witness :
  let total_loss := 173492001922%Z in
  total_loss_at ex_config (p_vgg ex_contrast_prepared)
    (p_content_features ex_contrast_prepared) (p_style_grams ex_contrast_prepared)
    (p_target ex_contrast_prepared) (store ex_moved_state)
    = Ok total_loss ∧
  spec_total_loss
    (get_features (store ex_moved_state) (pvalue ex_moved_target)
       (p_vgg ex_contrast_prepared) None)
    (p_content_features ex_contrast_prepared) (p_style_grams ex_contrast_prepared)
    (style_weights ex_config) (content_weight ex_config) (style_weight ex_config)
    = Ok total_loss ∧
  EvAddScalar "total_loss" total_loss 0 ∈ trace (snd (ex_moved_pass ex_moved_state)).
Proof.
  destruct (total_loss_formula fixed_point_add_assoc Z.add_0_l Z.add_0_r
              ex_contrast_world ex_config (p_vgg ex_contrast_prepared)
              (p_content_features ex_contrast_prepared)
              (p_style_grams ex_contrast_prepared)
              (p_target ex_contrast_prepared) (p_optimizer ex_contrast_prepared) 0
              ex_moved_state (snd (ex_moved_pass ex_moved_state)) ex_moved_target)
    as (total_loss & Hloss & Hspec & Hsent).
  - vm_compute. reflexivity.
  - unfold features_wf. vm_compute. repeat constructor.
  - vm_compute. reflexivity.
  - assert (Hvalue : total_loss = 173492001922%Z)
      by (vm_compute in Hloss; congruence).
    subst total_loss. auto.
Defined.

Lemma feature_extractor_frozen_witness :
  prepare ex_small_world ex_config initial_state = (Ok ex_prepared, ex_start) ∧
  let s2 :=
    snd (for_each (seq 0 4)
           (iteration ex_small_world ex_config (p_vgg ex_prepared)
              (p_content_features ex_prepared) (p_style_grams ex_prepared)
              (p_target ex_prepared) (p_optimizer ex_prepared)) ex_start) in
  (∀ id, id ≠ p_target ex_prepared → store s2 !! id = store ex_start !! id) ∧
  (∀ id, id ≠ p_target ex_prepared → adam_state s2 !! id = None) ∧
  (∀ id, id ∈ parameters (p_vgg ex_prepared) →
     id ≠ p_target ex_prepared ∧
     ∃ prm, store s2 !! id = Some prm ∧
            requires_grad prm = false ∧ pgrad prm = None).
Proof.
  assert (Hprep : prepare ex_small_world ex_config initial_state
                  = (Ok ex_prepared, ex_start)) by (vm_compute; reflexivity).
  split; [exact Hprep|].
  apply (feature_extractor_frozen ex_small_world ex_config ex_prepared ex_start Hprep 4).
Defined.

Lemma default_run_makes_2002_passes_witness :
  ∃ (p : Prepared (R := Z)) (s1 s2 : State (R := Z)) (passes : list (Z * Tensor Z))
    (prm : Param (R := Z)) (image : Tensor Z),
    prepare ex_small_world default_config initial_state = (Ok p, s1) ∧
    train_loop ex_small_world default_config (p_vgg p) (p_content_features p)
      (p_style_grams p) (p_target p) (p_optimizer p) s1 = (Ok (), s2) ∧
    length passes = 2002 ∧
    trace s2 =
      [EvOpenFile "images/pisa.jpeg"; EvOpenFile "images/ship_at_sea.jpeg"] ++
      concat (zip_with (λ ii x, pass_events 200 ii (fst x) (snd x))
                (seq 0 2002) passes) ∧
    store s2 !! p_target p = Some prm ∧
    im_convert (pvalue prm) = Ok image ∧
    snd (main ex_small_world default_config initial_state) =
      with_event s2 (EvImsave "target.png" image) ∧
    trace (snd (main ex_small_world default_config initial_state)) =
      [EvOpenFile "images/pisa.jpeg"; EvOpenFile "images/ship_at_sea.jpeg"] ++
      concat (zip_with (λ ii x, pass_events 200 ii (fst x) (snd x))
                (seq 0 2002) passes) ++
      [EvImsave "target.png" image].
Proof.
  apply (default_run_makes_2002_passes ex_small_world).
  vm_compute. exact I.
Defined.

Lemma scalar_at_every_pass_witness :
  let tr := trace (snd (main ex_small_world default_config initial_state)) in
  scalar_steps tr = seq 0 2002 ∧
  map fst (scalars tr) = seq 0 2002 ∧
  figure_steps tr = [0; 200; 400; 600; 800; 1000; 1200; 1400; 1600; 1800; 2000] ∧
  prints tr = map snd (filter (λ iv, fst iv `mod` 200 = 0) (scalars tr)).
Proof.
  apply (scalar_at_every_pass ex_small_world).
  vm_compute. exact I.
Defined.

Lemma unavailable_source_aborts_witness :
  (∀ max_size shape (s : State (R := Z)),
     load_image ex_small_world "images/missing.jpeg" max_size shape s =
     (Raise RetrievalError, with_event s (io_event "images/missing.jpeg"))) ∧
  (∀ cfg : Config (R := Z),
     content_path cfg = "images/missing.jpeg" ∨ style_path cfg = "images/missing.jpeg" →
     ∃ e s, prepare ex_small_world cfg initial_state = (Raise e, s) ∧
          main ex_small_world cfg initial_state = (Raise e, s) ∧
          adam_state s = ∅ ∧
          (trace s = [io_event (content_path cfg)] ∨
           trace s = [io_event (content_path cfg); io_event (style_path cfg)]) ∧
          (content_path cfg = "images/missing.jpeg" ∨
           is_Ok (fst (load_image ex_small_world (content_path cfg) (max_size cfg) None
                         initial_state)) →
           e = RetrievalError)).
Proof.
  apply (unavailable_source_aborts ex_small_world "images/missing.jpeg").
  reflexivity.
Defined.




(** A local directory whose name has "http" in it is asked of the
    network, and the load fails. *)
Example http_images_goes_to_network :
  load_image ex_small_world "http_images/pisa.jpeg" 400 None initial_state =
  (Raise RetrievalError, with_event initial_state (EvHttpGet "http_images/pisa.jpeg")).
Proof. reflexivity. Qed.

(** The same file under a name without it is opened from the disk. *)
Example images_opened_locally :
  trace (snd (load_image ex_small_world "images/pisa.jpeg" 400 None initial_state)) =
  [EvOpenFile "images/pisa.jpeg"].
Proof. rewrite load_image_state. reflexivity. Qed.

(** * Further properties *)

(** ** Gram matrices *)

Section GramFacts.
Context {R : Type} `{Scalar R}.

Lemma length_flat_map_rows {A} (g : nat → list A) (c : nat) :
  (∀ i, length (g i) = c) →
  ∀ r start, length (flat_map g (seq start r)) = r * c.
Proof.
  intros Hlen. induction r as [|r IH]; intros start; simpl; [reflexivity|].
  rewrite length_app, Hlen, IH. reflexivity.
Qed.

Lemma length_tabulate2 (r c : nat) (f : nat → nat → R) :
  length (tabulate2 r c f) = r * c.
Proof.
  unfold tabulate2. apply length_flat_map_rows.
  intros i. rewrite length_map, length_seq. reflexivity.
Qed.

Lemma length_tabulate3 (a b c : nat) (f : nat → nat → nat → R) :
  length (tabulate3 a b c f) = a * (b * c).
Proof.
  unfold tabulate3. apply length_flat_map_rows.
  intros i. apply (length_tabulate2 b c (f i)).
Qed.

Lemma nth_tabulate3 (a b c : nat) (f : nat → nat → nat → R) (i j k : nat) (d : R) :
  i < a → j < b → k < c →
  nth ((i * b + j) * c + k) (tabulate3 a b c f) d = f i j k.
Proof.
  intros Hi Hj Hk. unfold tabulate3.
  replace ((i * b + j) * c + k) with (i * (b * c) + (j * c + k)) by lia.
  rewrite (nth_flat_map_rows
             (λ i, flat_map (λ j, map (f i j) (seq 0 c)) (seq 0 b)) (b * c));
    [| intros i'; apply (length_tabulate2 b c (f i')) | exact Hi | nia].
  simpl. apply (nth_tabulate2 b c (f i)); assumption.
Qed.


(** X1.  [gram_matrix] returns only for a tensor of four axes whose batch
    is 1 (or which is empty), and what it returns is a well-formed C x C
    matrix; another number of axes raises ValueError at the unpacking, and
    a batch other than 1 on a tensor that is not empty raises RuntimeError
    at the view.  Whether a tensor of batch 1 is viewed depends on its
    memory layout as well, which is not stated here. *)
Theorem gram_matrix_defined (F : Tensor R) :
  (∀ G, gram_matrix F = Ok G →
     ∃ b c h w, tshape F = [b; c; h; w] ∧ (b = 1 ∨ c * h * w = 0) ∧
                tshape G = [c; c] ∧ wf_tensor G) ∧
  (∀ b c h w, tshape F = [b; c; h; w] → b ≠ 1 → c * h * w ≠ 0 →
     gram_matrix F = Raise RuntimeError) ∧
  (length (tshape F) ≠ 4 → gram_matrix F = Raise ValueError).
Proof.
  split; [|split].
  - intros G HG. pose proof HG as HG0. unfold gram_matrix in HG.
    destruct (tshape F) as [|b [|c [|h [|w [|]]]]] eqn:Hshape; try discriminate.
    exists b, c, h, w. split; [reflexivity|].
    unfold view2 in HG. rewrite Hshape in HG.
    destruct (decide (numel [b; c; h; w] = c * (h * w))) as [Hn|]; [|discriminate].
    simpl in Hn.
    assert (Hb : b * c * h * w = c * (h * w)) by lia.
    rewrite (gram_matrix_entries F b c h w Hshape Hb) in HG0.
    inversion HG0; subst G. split; [nia|]. split; [reflexivity|].
    unfold wf_tensor. simpl. rewrite length_tabulate2. lia.
  - intros b c h w Hshape Hb Hc. unfold gram_matrix, view2. rewrite Hshape.
    destruct (decide (numel [b; c; h; w] = c * (h * w))) as [Hn|]; [|reflexivity].
    simpl in Hn. exfalso. nia.
  - intros Hlen. unfold gram_matrix.
    destruct (tshape F) as [|b [|c [|h [|w [|]]]]]; try reflexivity.
    simpl in Hlen. lia.
Qed.

Section Scaling.
Hypothesis mul_comm : ∀ a b : R, smul a b = smul b a.
Hypothesis mul_assoc : ∀ a b c : R, smul a (smul b c) = smul (smul a b) c.
Hypothesis mul_add : ∀ a b c : R, smul a (sadd b c) = sadd (smul a b) (smul a c).
Hypothesis mul_0_r : ∀ a : R, smul a szero = szero.






End Scaling.

End GramFacts.

(** A batch of two feature maps cannot be viewed as one matrix. *)
Example gram_matrix_of_batch : gram_matrix ex_batch = Raise RuntimeError.
Proof. reflexivity. Qed.


(** ** Dictionaries and features *)

Section DictFacts.
Context {V : Type}.

Lemma dict_get_set (d : Dict V) (k k' : string) (v : V) :
  dict_get (dict_set d k v) k' = if decide (k' = k) then Some v else dict_get d k'.
Proof.
  induction d as [|[k0 v0] d IH]; simpl.
  - destruct (decide (k' = k)); reflexivity.
  - destruct (decide (k = k0)) as [Hk|Hk]; simpl.
    + subst k0. destruct (decide (k' = k)); reflexivity.
    + destruct (decide (k' = k0)) as [Hk'|Hk'].
      * subst k0. destruct (decide (k' = k)); [congruence | reflexivity].
      * exact IH.
Qed.

End DictFacts.

Section FeatureFacts.
Context {R : Type} `{Scalar R}.

#[local] Abbreviation Store := (gmap nat (Param (R := R))).
#[local] Abbreviation Network := (list (string * Layer (R := R))).

Lemma fold_left_ext {A B} (f g : A → B → A) (l : list B) (a : A) :
  (∀ a b, f a b = g a b) → fold_left f l a = fold_left g l a.
Proof.
  intros Hfg. revert a. induction l as [|b l IH]; intros a; simpl; [reflexivity|].
  rewrite Hfg. apply IH.
Qed.

Lemma get_features_fold (st : Store) (image : Tensor R) (model : Network)
    (layers : option (Dict string)) :
  get_features st image model layers =
  snd (fold_left (capture st (default default_layers layers)) model (image, [])).
Proof.
  unfold get_features. f_equal. apply fold_left_ext.
  intros [x features] [name layer]. reflexivity.
Qed.

Lemma omap_ext_in {A B} (f g : A → option B) (l : list A) :
  (∀ a, a ∈ l → f a = g a) → omap f l = omap g l.
Proof.
  induction l as [|a l IH]; intros Hfg; [reflexivity|].
  assert (IH' : omap f l = omap g l).
  { apply IH. intros b Hb. apply Hfg. apply list_elem_of_further. exact Hb. }
  simpl. rewrite (Hfg a) by apply list_elem_of_here.
  destruct (g a); [f_equal|]; exact IH'.
Qed.

Lemma capture_agree (st1 st2 : Store) (layers : Dict string)
    (acc : Tensor R * Dict (Tensor R)) (entry : string * Layer (R := R)) :
  (∀ id, id ∈ layer_params (snd entry) → pvalue <$> st1 !! id = pvalue <$> st2 !! id) →
  capture st1 layers acc entry = capture st2 layers acc entry.
Proof.
  intros Hagree. unfold capture, apply_layer.
  rewrite (omap_ext_in _ (λ id, pvalue <$> st2 !! id) _ Hagree). reflexivity.
Qed.

Lemma capture_fold_agree (st1 st2 : Store) (layers : Dict string) (model : Network)
    (acc : Tensor R * Dict (Tensor R)) :
  (∀ id, id ∈ parameters model → pvalue <$> st1 !! id = pvalue <$> st2 !! id) →
  fold_left (capture st1 layers) model acc = fold_left (capture st2 layers) model acc.
Proof.
  revert acc. induction model as [|entry model IH]; intros acc Hagree; simpl;
    [reflexivity|].
  rewrite (capture_agree st1 st2).
  - apply IH. intros id Hin. apply Hagree. unfold parameters. simpl.
    apply elem_of_app. right. exact Hin.
  - intros id Hin. apply Hagree. unfold parameters. simpl.
    apply elem_of_app. left. exact Hin.
Qed.

Lemma captured_keys (st : Store) (layers : Dict string) (model : Network)
    (acc : Tensor R * Dict (Tensor R)) (key : string) :
  dict_get (snd (fold_left (capture st layers) model acc)) key = None ↔
  dict_get (snd acc) key = None ∧
  ∀ entry, entry ∈ model → dict_get layers (fst entry) ≠ Some key.
Proof.
  revert acc. induction model as [|entry model IH]; intros acc; simpl.
  - split; [intros Hk; split; [exact Hk|] | intros [Hk _]; exact Hk].
    intros entry Hin. apply elem_of_nil in Hin. contradiction.
  - rewrite IH. unfold capture at 1.
    destruct (dict_get layers (fst entry)) as [k|] eqn:Hentry; simpl.
    + rewrite dict_get_set. destruct (decide (key = k)) as [->|Hne].
      * split; [intros [Hk _]; discriminate|].
        intros [_ Hall]. exfalso. apply (Hall entry); [apply list_elem_of_here | exact Hentry].
      * split.
        -- intros [Hk Hall]. split; [exact Hk|]. intros e He.
           apply elem_of_cons in He as [->|He]; [congruence | auto].
        -- intros [Hk Hall]. split; [exact Hk|]. intros e He.
           apply Hall. apply list_elem_of_further. exact He.
    + split.
      * intros [Hk Hall]. split; [exact Hk|]. intros e He.
        apply elem_of_cons in He as [->|He]; [congruence | auto].
      * intros [Hk Hall]. split; [exact Hk|]. intros e He.
        apply Hall. apply list_elem_of_further. exact He.
Qed.

(** X5.  The features hold a key exactly when some module of the network
    is mapped to it by [layers]: a key is missing if and only if no module
    name leads to it. *)
Theorem get_features_keys (st : Store) (image : Tensor R) (model : Network)
    (layers : option (Dict string)) (key : string) :
  dict_get (get_features st image model layers) key = None ↔
  ∀ entry, entry ∈ model →
    dict_get (default default_layers layers) (fst entry) ≠ Some key.
Proof.
  rewrite get_features_fold, captured_keys. simpl.
  split; [intros [_ Hall]; exact Hall | intros Hall; split; [reflexivity | exact Hall]].
Qed.

Lemma default_layer_conv4_2 (name : string) :
  dict_get default_layers name = Some "conv4_2" → name = "21".
Proof.
  unfold default_layers. simpl.
  repeat (destruct (decide _) as [?|?]); intros Hkey;
    first [discriminate | assumption].
Qed.

Section MissingLayer.
Variable W : World (R := R).
Variable cfg : Config (R := R).

(** X6.  With a network that has no module named "21" there is no
    conv4_2 among the features, and every pass of the loop raises
    KeyError('conv4_2') at the content loss, before anything is sent and
    before any update. *)
Theorem pass_without_content_layer (vgg : Network)
    (content_features style_grams : Dict (Tensor R)) (target : nat)
    (optimizer : Adam (R := R)) (ii : nat) (s : State (R := R)) :
  (∀ entry, entry ∈ vgg → fst entry ≠ "21") →
  is_Some (store s !! target) →
  iteration W cfg vgg content_features style_grams target optimizer ii s =
  (Raise (KeyError "conv4_2"), s).
Proof.
  intros Hnames [p Hp].
  assert (Hloss : total_loss_at cfg vgg content_features style_grams target (store s)
                  = Raise (KeyError "conv4_2")).
  { unfold total_loss_at. rewrite Hp. unfold total_loss_of, content_loss_of, getitem.
    assert (Hnone : dict_get (get_features (store s) (pvalue p) vgg None) "conv4_2" = None).
    { rewrite get_features_fold. apply captured_keys. split; [reflexivity|].
      intros entry Hin Hkey.
      apply default_layer_conv4_2 in Hkey. exact (Hnames entry Hin Hkey). }
    rewrite Hnone. reflexivity. }
  unfold iteration. rewrite bind_run. simpl. rewrite bind_run. unfold lift.
  rewrite Hloss. reflexivity.
Qed.

End MissingLayer.

Section ZeroStyleWeight.
Hypothesis mul_0_l : ∀ a : R, smul szero a = szero.
Hypothesis add_0_r : ∀ a : R, sadd a szero = a.


End ZeroStyleWeight.

End FeatureFacts.

Lemma pass_without_content_layer_witness :
  iteration ex_small_world ex_config ex_shallow_network
    (p_content_features ex_prepared) (p_style_grams ex_prepared)
    (p_target ex_prepared) (p_optimizer ex_prepared) 0 ex_start =
  (Raise (KeyError "conv4_2"), ex_start).
Proof.
  apply (pass_without_content_layer ex_small_world ex_config ex_shallow_network).
  - intros entry Hin. unfold ex_shallow_network in Hin.
    apply elem_of_cons in Hin as [->|Hin]; [discriminate|].
    apply list_elem_of_singleton in Hin as ->. discriminate.
  - vm_compute. eauto.
Defined.



(** ** Loaded images *)

Section LoadedFacts.
Context {R : Type} `{Scalar R}.
Variable W : World (R := R).

#[local] Abbreviation State := (State (R := R)).

(** The run of [load_image], whatever the source and the shape. *)
Lemma load_image_run (path : string) (max_size : nat) (shape : option (list nat))
    (s : State) :
  load_image W path max_size shape s =
  (match fetch W path with
   | None => Raise RetrievalError
   | Some image =>
       match resized_hw (im_height image) (im_width image)
               (requested_size image max_size shape) with
       | Ok (h, w) => Ok (loaded_tensor W image h w)
       | Raise e => Raise e
       end
   end,
   with_event s (io_event path)).
Proof.
  unfold load_image. rewrite bind_run, open_source_run. unfold decoded.
  destruct (fetch W path) as [image|]; [|reflexivity].
  rewrite bind_run. unfold lift, resize, requested_size.
  destruct shape as [shape|]; cbn [im_height im_width];
    destruct (resized_hw _ _ _) as [[h w]|e]; reflexivity.
Qed.

Lemma loaded_tensor_shape (image : Image) (h w : nat) :
  tshape (loaded_tensor W image h w) = [1; 3; h; w] ∧
  wf_tensor (loaded_tensor W image h w).
Proof.
  split; [reflexivity|].
  unfold wf_tensor, loaded_tensor. simpl.
  rewrite length_take, length_tabulate3. lia.
Qed.

(** X8.  Whatever [load_image] returns is a well-formed tensor of one
    image with three channels: shape (1, 3, h, w) and 3·h·w values. *)
Theorem load_image_returns_image_tensor (path : string) (max_size : nat)
    (shape : option (list nat)) (s : State) (t : Tensor R) :
  fst (load_image W path max_size shape s) = Ok t →
  ∃ h w, tshape t = [1; 3; h; w] ∧ wf_tensor t ∧ length (tdata t) = 3 * h * w.
Proof.
  rewrite load_image_run. simpl.
  destruct (fetch W path) as [image|]; [|discriminate].
  destruct (resized_hw _ _ _) as [[h w]|e]; [|discriminate].
  intros Ht. inversion Ht; subst t. exists h, w.
  destruct (loaded_tensor_shape image h w) as [Hshape Hwf].
  split; [exact Hshape|]. split; [exact Hwf|].
  unfold wf_tensor in Hwf. rewrite Hwf, Hshape. simpl. lia.
Qed.

(** X9.  Loading the style image with the last two axes of the content
    tensor as its shape gives a tensor of the content's shape, whatever
    the size of the style image and whatever [max_size]. *)
Theorem style_takes_content_shape (content_path style_path : string)
    (max_size max_size' : nat) (shape : option (list nat)) (s s1 : State)
    (content : Tensor R) :
  fst (load_image W content_path max_size shape s) = Ok content →
  fetch W style_path ≠ None →
  ∃ style,
    load_image W style_path max_size' (Some (last2 (tshape content))) s1 =
      (Ok style, with_event s1 (io_event style_path)) ∧
    tshape style = tshape content.
Proof.
  intros Hcontent Hstyle.
  assert (Hshape : ∃ h w, tshape content = [1; 3; h; w] ∧ 0 < h ∧ 0 < w).
  { rewrite load_image_run in Hcontent. simpl in Hcontent.
    destruct (fetch W content_path) as [image|]; [|discriminate].
    destruct (resized_hw _ _ _) as [[h w]|e] eqn:Hsize; [|discriminate].
    inversion Hcontent. exists h, w. split; [reflexivity|].
    apply (resized_hw_positive _ _ _ _ _ Hsize). }
  destruct Hshape as (h & w & Hshape & Hh & Hw).
  rewrite load_image_run, Hshape.
  destruct (fetch W style_path) as [image|]; [|contradiction].
  exists (loaded_tensor W image h w).
  unfold requested_size, last2. simpl.
  rewrite resized_hw_pair by assumption. split; reflexivity.
Qed.

(** X10.  Without a target shape and with a positive [max_size] it is the
    smaller side of the returned tensor that equals min(max_size, larger
    side of the image); the larger side is at least that, and equal to it
    for a square image.  With [max_size] 0 nothing is returned: [Resize]
    refuses the empty size with a ValueError. *)
Theorem load_image_caps_smaller_side (path : string) (max_size : nat)
    (s : State) (image : Image) :
  fetch W path = Some image →
  0 < im_width image → 0 < im_height image →
  let cap := max_size `min` (im_width image `max` im_height image) in
  (0 < max_size →
   ∃ t h w,
     fst (load_image W path max_size None s) = Ok t ∧
     tshape t = [1; 3; h; w] ∧
     h `min` w = cap ∧
     cap ≤ h `max` w ∧
     (im_width image = im_height image → h = cap ∧ w = cap)) ∧
  (max_size = 0 → fst (load_image W path max_size None s) = Raise ValueError).
Proof.
  intros Hfetch Hw Hh cap.
  assert (Hreq : requested_size image max_size None = SizeInt cap).
  { unfold requested_size, cap. destruct (decide _); f_equal; lia. }
  rewrite load_image_run, Hfetch, Hreq. split.
  - intros Hmax. assert (Hcap : 0 < cap) by (unfold cap; lia).
    rewrite (resized_hw_int _ _ _ Hh Hw Hcap).
    destruct (decide (im_width image ≤ im_height image)) as [Hle|Hgt].
    + assert (Hlong : cap ≤ cap * im_height image / im_width image)
        by (apply Nat.div_le_lower_bound; nia).
      exists (loaded_tensor W image (cap * im_height image / im_width image) cap),
             (cap * im_height image / im_width image), cap.
      split; [reflexivity|]. split; [reflexivity|].
      split; [lia|]. split; [lia|].
      intros Heq. rewrite Heq. rewrite Nat.div_mul by lia. auto.
    + assert (Hlong : cap ≤ cap * im_width image / im_height image)
        by (apply Nat.div_le_lower_bound; nia).
      exists (loaded_tensor W image cap (cap * im_width image / im_height image)),
             cap, (cap * im_width image / im_height image).
      split; [reflexivity|]. split; [reflexivity|].
      split; [lia|]. split; [lia|].
      intros Heq. lia.
  - intros Hmax. assert (Hcap : cap = 0) by (unfold cap; lia).
    rewrite Hcap, resized_hw_zero. reflexivity.
Qed.

End LoadedFacts.

(** ** Images for display *)

Section DisplayFacts.
Context {R : Type} `{Scalar R}.

Lemma squeeze_image_shape (h w : nat) :
  h ≠ 1 → w ≠ 1 → filter (λ d, d ≠ 1) [1; 3; h; w] = [3; h; w].
Proof.
  intros Hh Hw.
  rewrite filter_cons_False by (intros Hne; apply Hne; reflexivity).
  rewrite filter_cons_True by discriminate.
  rewrite filter_cons_True by exact Hh.
  rewrite filter_cons_True by exact Hw.
  reflexivity.
Qed.

Lemma thin_image_raises (tensor : Tensor R) (h w : nat) :
  tshape tensor = [1; 3; h; w] → h = 1 ∨ w = 1 → im_convert tensor = Raise ValueError.
Proof.
  intros Hshape Hone. unfold im_convert. simpl. rewrite Hshape.
  rewrite filter_cons_False by (intros Hne; apply Hne; reflexivity).
  rewrite filter_cons_True by discriminate.
  destruct Hone as [-> | ->].
  - rewrite filter_cons_False by (intros Hne; apply Hne; reflexivity).
    destruct (decide (w = 1)) as [->|Hw].
    + rewrite filter_cons_False by (intros Hne; apply Hne; reflexivity). reflexivity.
    + rewrite filter_cons_True by exact Hw. reflexivity.
  - destruct (decide (h = 1)) as [->|Hh].
    + rewrite filter_cons_False by (intros Hne; apply Hne; reflexivity).
      rewrite filter_cons_False by (intros Hne; apply Hne; reflexivity). reflexivity.
    + rewrite filter_cons_True by exact Hh.
      rewrite filter_cons_False by (intros Hne; apply Hne; reflexivity). reflexivity.
Qed.

(** X11.  [im_convert] of a (1, 3, H, W) tensor returns an H x W x 3 array
    when H and W are both other than 1; an image one pixel high or one
    pixel wide loses that axis in the squeeze and raises ValueError at the
    transpose. *)
Theorem im_convert_of_image_tensor (tensor : Tensor R) (h w : nat) :
  tshape tensor = [1; 3; h; w] →
  (h ≠ 1 → w ≠ 1 →
     ∃ image, im_convert tensor = Ok image ∧
              tshape image = [h; w; 3] ∧ length (tdata image) = h * (w * 3)) ∧
  (h = 1 ∨ w = 1 → im_convert tensor = Raise ValueError).
Proof.
  intros Hshape. split; [|apply thin_image_raises; exact Hshape].
  intros Hh Hw. unfold im_convert. simpl. rewrite Hshape.
  rewrite (squeeze_image_shape h w Hh Hw). simpl.
  eexists. split; [reflexivity|]. split; [reflexivity|].
  simpl. apply length_tabulate3.
Qed.

(** X12.  The array [im_convert] returns has the channel last: its entry
    (y, x, k) is the tensor's entry (0, k, y, x) times the k-th standard
    deviation plus the k-th mean, clipped to [0, 1]. *)
Theorem im_convert_entries (tensor image : Tensor R) (h w y x k : nat) :
  tshape tensor = [1; 3; h; w] →
  im_convert tensor = Ok image →
  y < h → x < w → k < 3 →
  at3 image y x k =
  clip (sadd (smul (nth ((k * h + y) * w + x) (tdata tensor) szero)
                   (nth k norm_std szero))
             (nth k norm_mean szero))
       szero sone.
Proof.
  intros Hshape Hconv Hy Hx Hk.
  assert (Hh : h ≠ 1 ∧ w ≠ 1).
  { destruct (decide (h = 1)) as [Hh|Hh]; [|destruct (decide (w = 1)) as [Hw|Hw]].
    - rewrite (thin_image_raises tensor h w Hshape) in Hconv by (left; exact Hh).
      discriminate.
    - rewrite (thin_image_raises tensor h w Hshape) in Hconv by (right; exact Hw).
      discriminate.
    - auto. }
  destruct Hh as [Hh Hw].
  unfold im_convert in Hconv. simpl in Hconv. rewrite Hshape in Hconv.
  rewrite (squeeze_image_shape h w Hh Hw) in Hconv. simpl in Hconv.
  inversion Hconv; subst image; clear Hconv.
  unfold at3 at 1. cbn [tshape tdata].
  rewrite nth_tabulate3 by assumption. reflexivity.
Qed.

End DisplayFacts.

Lemma load_image_returns_image_tensor_witness :
  ∃ h w, tshape ex_content = [1; 3; h; w] ∧ wf_tensor ex_content ∧
         length (tdata ex_content) = 3 * h * w.
Proof.
  apply (load_image_returns_image_tensor ex_small_world "images/pisa.jpeg" 400 None
           initial_state ex_content).
  vm_compute. reflexivity.
Defined.

Lemma style_takes_content_shape_witness :
  ∃ style,
    load_image ex_small_world "images/ship_at_sea.jpeg" 400
      (Some (last2 (tshape ex_content))) initial_state =
      (Ok style, with_event initial_state (io_event "images/ship_at_sea.jpeg")) ∧
    tshape style = tshape ex_content.
Proof.
  apply (style_takes_content_shape ex_small_world "images/pisa.jpeg"
           "images/ship_at_sea.jpeg" 400 400 None initial_state initial_state ex_content).
  - vm_compute. reflexivity.
  - discriminate.
Defined.

Lemma load_image_caps_smaller_side_witness :
  let cap := 400 `min` (im_width (ex_image 800 600) `max` im_height (ex_image 800 600)) in
  ∃ t h w,
    fst (load_image ex_large_world "images/pisa.jpeg" 400 None initial_state) = Ok t ∧
    tshape t = [1; 3; h; w] ∧
    h `min` w = cap ∧
    cap ≤ h `max` w ∧
    (im_width (ex_image 800 600) = im_height (ex_image 800 600) → h = cap ∧ w = cap).
Proof.
  intros cap.
  destruct (load_image_caps_smaller_side ex_large_world "images/pisa.jpeg" 400
              initial_state (ex_image 800 600)) as [Hpositive _].
  - reflexivity.
  - simpl. lia.
  - simpl. lia.
  - apply Hpositive. lia.
Defined.

Lemma im_convert_of_image_tensor_witness :
  (2 ≠ 1 → 2 ≠ 1 →
     ∃ image, im_convert ex_content = Ok image ∧
              tshape image = [2; 2; 3] ∧ length (tdata image) = 2 * (2 * 3)) ∧
  (2 = 1 ∨ 2 = 1 → im_convert ex_content = Raise ValueError).
Proof.
  apply (im_convert_of_image_tensor ex_content 2 2). reflexivity.
Defined.

Lemma im_convert_entries_witness :
  at3 ex_display 1 0 2 =
  clip (sadd (smul (nth ((2 * 2 + 1) * 2 + 0) (tdata ex_content) szero)
                   (nth 2 norm_std szero))
             (nth 2 norm_mean szero))
       szero sone.
Proof.
  apply (im_convert_entries ex_content ex_display 2 2 1 0 2).
  - reflexivity.
  - vm_compute. reflexivity.
  - lia.
  - lia.
  - lia.
Defined.

(** ** A pass of the loop, outcome by outcome *)

Section PassFacts.
Context {R : Type} `{Scalar R}.
Variable W : World (R := R).
Variable cfg : Config (R := R).

#[local] Abbreviation State := (State (R := R)).
#[local] Abbreviation Adam := (Adam (R := R)).
#[local] Abbreviation Network := (list (string * Layer (R := R))).

Lemma for_each_total {A} (body : A → M (R := R) unit) (l : list A) :
  (∀ a s, body a s = (Ok (), snd (body a s))) →
  ∀ s, for_each l body s = (Ok (), snd (for_each l body s)).
Proof.
  intros Hbody. induction l as [|a l IH]; intros s; simpl; [reflexivity|].
  rewrite bind_run, Hbody. apply IH.
Qed.

Lemma zero_grad_run (optimizer : Adam) (s : State) :
  zero_grad optimizer s = (Ok (), snd (zero_grad optimizer s)).
Proof.
  unfold zero_grad. apply for_each_total. intros id s0.
  cbv beta. rewrite bind_run. simpl. destruct (store s0 !! id); reflexivity.
Qed.

Lemma step_run (optimizer : Adam) (s : State) :
  step W optimizer s = (Ok (), snd (step W optimizer s)).
Proof.
  unfold step. apply for_each_total. intros id s0. unfold adam_update.
  destruct (store s0 !! id) as [p|]; [|reflexivity].
  destruct (pgrad p) as [g|]; [|reflexivity].
  destruct (adam_math W _ _ _ _) as [[value m] v]. reflexivity.
Qed.

Lemma bind_returned {A B} (m : M (R := R) A) (f : A → M (R := R) B)
    (s s' : State) (a : A) :
  m s = (Ok a, s') → (m ≫= f) s = f a s'.
Proof. intros Hm. rewrite bind_run, Hm. reflexivity. Qed.

Lemma read_param_run (id : nat) (s : State) :
  read_param id s =
  (match store s !! id with
   | Some p => Ok (pvalue p)
   | None => Raise RuntimeError
   end, s).
Proof.
  unfold read_param. rewrite (bind_returned get_store _ s s (store s)) by reflexivity.
  destruct (store s !! id); reflexivity.
Qed.

Lemma iteration_run (vgg : Network) (content_features style_grams : Dict (Tensor R))
    (target : nat) (optimizer : Adam) (ii : nat) (s : State) :
  iteration W cfg vgg content_features style_grams target optimizer ii s =
  pass_result W cfg vgg content_features style_grams target optimizer ii s.
Proof.
  unfold iteration, pass_result.
  rewrite (bind_returned get_store _ s s (store s)) by reflexivity.
  rewrite bind_run. unfold lift.
  destruct (total_loss_at cfg vgg content_features style_grams target (store s))
    as [total_loss|e]; [|reflexivity].
  set (loss := total_loss_at cfg vgg content_features style_grams target).
  set (s1 := with_event s (EvAddScalar "total_loss" total_loss ii)).
  rewrite (bind_returned (emit _) _ s s1 ()) by reflexivity.
  rewrite (bind_returned _ _ _ _ _ (zero_grad_run optimizer s1)).
  rewrite (bind_returned (backward W loss) _ _
             (snd (backward W loss (snd (zero_grad optimizer s1)))) ()) by reflexivity.
  rewrite (bind_returned _ _ _ _ _ (step_run optimizer _)).
  fold (after_updates W loss optimizer s1).
  destruct (decide (show_every cfg = 0)); [reflexivity|].
  destruct (decide (ii `mod` show_every cfg = 0)); [|reflexivity].
  unfold show_result.
  rewrite (bind_returned (emit _) _ _
             (with_event (after_updates W loss optimizer s1)
                (EvPrint "Total loss: " total_loss)) ()) by reflexivity.
  rewrite bind_run, read_param_run. cbn [with_event store].
  destruct (store (after_updates W loss optimizer s1) !! target) as [prm|];
    [|reflexivity].
  rewrite bind_run. unfold lift.
  destruct (im_convert (pvalue prm)); reflexivity.
Qed.

Lemma after_updates_trace (loss : gmap nat (Param (R := R)) → Result R)
    (optimizer : Adam) (s : State) :
  trace (after_updates W loss optimizer s) = trace s.
Proof.
  unfold after_updates.
  rewrite (step_same_trace W optimizer), (backward_same_trace W loss).
  apply zero_grad_same_trace.
Qed.

Lemma export_run (target : nat) (s : State) :
  export target s =
  match store s !! target with
  | None => (Raise RuntimeError, s)
  | Some prm =>
      match im_convert (pvalue prm) with
      | Ok image => (Ok (), with_event s (EvImsave "target.png" image))
      | Raise e => (Raise e, s)
      end
  end.
Proof.
  unfold export. rewrite bind_run, read_param_run.
  destruct (store s !! target) as [prm|]; [|reflexivity].
  rewrite bind_run. unfold lift.
  destruct (im_convert (pvalue prm)); reflexivity.
Qed.

(** What a pass adds to the trace: its scalar first, unless the loss
    itself failed; never an export. *)
Lemma pass_events_any (vgg : Network) (content_features style_grams : Dict (Tensor R))
    (target : nat) (optimizer : Adam) (ii : nat) (s : State) :
  let run := iteration W cfg vgg content_features style_grams target optimizer ii s in
  ∃ evs, trace (snd run) = trace s ++ evs ∧ exports evs = [] ∧
         (scalar_steps evs = [ii] ∨ (scalar_steps evs = [] ∧ fst run ≠ Ok ())).
Proof.
  intros run. unfold run. rewrite iteration_run. unfold pass_result.
  destruct (total_loss_at cfg vgg content_features style_grams target (store s))
    as [total_loss|e].
  - set (s4 := after_updates W _ optimizer _).
    assert (T4 : trace s4 = trace s ++ [EvAddScalar "total_loss" total_loss ii])
      by (unfold s4; rewrite after_updates_trace; reflexivity).
    destruct (decide (show_every cfg = 0)).
    { exists [EvAddScalar "total_loss" total_loss ii]. simpl. auto. }
    destruct (decide (ii `mod` show_every cfg = 0)).
    + unfold show_result. cbn [with_event store].
      destruct (store s4 !! target) as [prm|].
      * destruct (im_convert (pvalue prm)) as [image|].
        -- exists [EvAddScalar "total_loss" total_loss ii;
                   EvPrint "Total loss: " total_loss; EvImshow image;
                   EvAddFigure "figs" ii].
           simpl. rewrite T4, <- !app_assoc. auto.
        -- exists [EvAddScalar "total_loss" total_loss ii;
                   EvPrint "Total loss: " total_loss].
           simpl. rewrite T4, <- !app_assoc. auto.
      * exists [EvAddScalar "total_loss" total_loss ii;
                EvPrint "Total loss: " total_loss].
        simpl. rewrite T4, <- !app_assoc. auto.
    + exists [EvAddScalar "total_loss" total_loss ii]. simpl. auto.
  - exists []. simpl. rewrite app_nil_r. split; [reflexivity|]. split; [reflexivity|].
    right. split; [reflexivity | discriminate].
Qed.

(** The scalars of a loop, returned or not, are those of its first passes. *)
Lemma loop_prefix (vgg : Network) (content_features style_grams : Dict (Tensor R))
    (target : nat) (optimizer : Adam) (n a : nat) (s : State) :
  let run := for_each (seq a n)
               (iteration W cfg vgg content_features style_grams target optimizer) s in
  ∃ k evs, k ≤ n ∧ trace (snd run) = trace s ++ evs ∧
           scalar_steps evs = seq a k ∧ exports evs = [] ∧
           (fst run = Ok () → k = n).
Proof.
  revert a s. induction n as [|n IH]; intros a s run; unfold run; simpl.
  - exists 0, []. rewrite app_nil_r. auto.
  - rewrite bind_run.
    destruct (pass_events_any vgg content_features style_grams target optimizer a s)
      as (evs1 & T1 & X1 & S1).
    destruct (iteration W cfg vgg content_features style_grams target optimizer a s)
      as [[[]|e] s1]; simpl in *.
    + destruct S1 as [S1|[_ S1]]; [|congruence].
      destruct (IH (S a) s1) as (k & evs2 & Hk & T2 & S2 & X2 & Hok).
      exists (S k), (evs1 ++ evs2). split; [lia|]. split.
      { rewrite T2, T1, app_assoc. reflexivity. }
      split; [rewrite scalar_steps_app, S1, S2; reflexivity|].
      split; [rewrite exports_app, X1, X2; reflexivity|].
      intros Hrun. f_equal. exact (Hok Hrun).
    + destruct S1 as [S1|[S1 _]].
      * exists 1, evs1. split; [lia|]. split; [exact T1|].
        split; [exact S1|]. split; [exact X1 | discriminate].
      * exists 0, evs1. split; [lia|]. split; [exact T1|].
        split; [exact S1|]. split; [exact X1 | discriminate].
Qed.

Lemma prepare_trace :
  let s := snd (prepare W cfg initial_state) in
  trace s = [io_event (content_path cfg)] ∨
  trace s = [io_event (content_path cfg); io_event (style_path cfg)].
Proof.
  destruct (frozen_network_run W)
    as (vgg & s1 & s2 & Hload & Hfreeze & T2 & _).
  unfold prepare. rewrite bind_run, Hload, bind_run, Hfreeze.
  rewrite bind_run, load_image_run.
  destruct (fetch W (content_path cfg)) as [image|];
    [|left; simpl; rewrite T2; reflexivity].
  destruct (resized_hw _ _ _) as [[h w]|e];
    [|left; simpl; rewrite T2; reflexivity].
  rewrite bind_run, load_image_run.
  assert (T : trace (with_event (with_event s2 (io_event (content_path cfg)))
                       (io_event (style_path cfg))) =
              [io_event (content_path cfg); io_event (style_path cfg)])
    by (simpl; rewrite T2; reflexivity).
  destruct (fetch W (style_path cfg)) as [image'|]; [|right; exact T].
  destruct (resized_hw _ _ _) as [[h' w']|e]; [|right; exact T].
  rewrite (bind_returned get_store _ _ _ _ eq_refl).
  rewrite bind_run. unfold lift.
  destruct (gram_all _) as [grams|e]; [|right; exact T].
  right. exact T.
Qed.

(** X13.  Whatever happens, the scalars the writer has received are those
    of the passes 0, 1, ..., k-1 for some k, with no gap and none twice;
    all of them when the run returns; and an image has been saved only if
    the run returned. *)
Theorem scalars_are_a_prefix :
  let run := main W cfg initial_state in
  ∃ k, k ≤ steps cfg + 1 ∧
       scalar_steps (trace (snd run)) = seq 0 k ∧
       (fst run = Ok () → k = steps cfg + 1) ∧
       (exports (trace (snd run)) ≠ [] → fst run = Ok ()).
Proof.
  intros run. unfold run, main. rewrite bind_run.
  pose proof prepare_trace as Tp.
  destruct (loads_unseen (R := R) (content_path cfg) (style_path cfg))
    as (_ & L2 & _ & _ & L5).
  assert (Hloads : scalar_steps (trace (snd (prepare W cfg initial_state))) = [] ∧
                   exports (trace (snd (prepare W cfg initial_state))) = []).
  { simpl in Tp. unfold io_event in *.
    destruct Tp as [-> | ->]; [| split; assumption].
    destruct (contains "http" (content_path cfg)); split; reflexivity. }
  destruct Hloads as [S0 X0].
  destruct (prepare W cfg initial_state) as [[p|e] s1]; simpl in S0, X0.
  - rewrite bind_run. unfold train_loop.
    destruct (loop_prefix (p_vgg p) (p_content_features p) (p_style_grams p)
                (p_target p) (p_optimizer p) (steps cfg + 1) 0 s1)
      as (k & evs & Hk & T & S & X & Hok).
    destruct (for_each _ _ s1) as [[[]|e] s2]; simpl in *.
    + rewrite export_run. exists k.
      destruct (store s2 !! p_target p) as [prm|].
      * destruct (im_convert (pvalue prm)) as [image|]; simpl.
        -- rewrite T, !scalar_steps_app, S0, S. simpl. rewrite app_nil_r. auto.
        -- rewrite T, scalar_steps_app, exports_app, S0, S, X0, X. simpl.
           split; [exact Hk|]. split; [reflexivity|]. split; [discriminate | contradiction].
      * simpl. rewrite T, scalar_steps_app, exports_app, S0, S, X0, X. simpl.
        split; [exact Hk|]. split; [reflexivity|]. split; [discriminate | contradiction].
    + exists k. rewrite T, scalar_steps_app, exports_app, S0, S, X0, X. simpl.
      split; [exact Hk|]. split; [reflexivity|]. split; [discriminate | contradiction].
  - exists 0. simpl. rewrite S0, X0.
    split; [lia|]. split; [reflexivity|]. split; [discriminate | contradiction].
Qed.

(** X14.  With [show_every] set to 0 no run returns: the first pass
    raises ZeroDivisionError at the test of the index, after the scalar
    was sent and the optimiser has stepped. *)
Theorem no_show_interval_raises :
  show_every cfg = 0 →
  ¬ is_Ok (fst (main W cfg initial_state)) ∧
  ∀ (vgg : Network) (content_features style_grams : Dict (Tensor R))
    (target : nat) (optimizer : Adam) (ii : nat) (s : State) (total_loss : R),
    total_loss_at cfg vgg content_features style_grams target (store s) = Ok total_loss →
    iteration W cfg vgg content_features style_grams target optimizer ii s =
    (Raise ZeroDivisionError,
     after_updates W (total_loss_at cfg vgg content_features style_grams target) optimizer
       (with_event s (EvAddScalar "total_loss" total_loss ii))).
Proof.
  intros Hshow. split.
  - intros Hok. apply is_Ok_run in Hok as ([] & Hrun).
    apply main_run in Hrun as (p & s1 & s2 & _ & _ & _ & Hloop & _).
    unfold train_loop in Hloop. rewrite Nat.add_1_r in Hloop. simpl in Hloop.
    apply bind_run_Ok in Hloop as ([] & s3 & Hpass & _).
    rewrite iteration_run in Hpass. unfold pass_result in Hpass.
    destruct (total_loss_at _ _ _ _ _ _); [|discriminate].
    destruct (decide (show_every cfg = 0)); [discriminate | contradiction].
  - intros vgg cf sg target optimizer ii s total_loss Hloss.
    rewrite iteration_run. unfold pass_result. rewrite Hloss.
    destruct (decide (show_every cfg = 0)); [reflexivity | contradiction].
Qed.

(** X15.  In a pass whose index is a multiple of [show_every], the value
    printed is the loss computed before the update, the one sent as the
    scalar, and the image shown is the target as the update left it. *)
Theorem snapshot_shows_updated_target (vgg : Network)
    (content_features style_grams : Dict (Tensor R))
    (target : nat) (optimizer : Adam) (ii : nat) (s s' : State) :
  iteration W cfg vgg content_features style_grams target optimizer ii s = (Ok (), s') →
  ii `mod` show_every cfg = 0 →
  ∃ total_loss prm image,
    total_loss_at cfg vgg content_features style_grams target (store s) = Ok total_loss ∧
    store s' !! target = Some prm ∧
    im_convert (pvalue prm) = Ok image ∧
    trace s' = trace s ++
      [EvAddScalar "total_loss" total_loss ii; EvPrint "Total loss: " total_loss;
       EvImshow image; EvAddFigure "figs" ii].
Proof.
  rewrite iteration_run. unfold pass_result. intros Hrun Hmod.
  destruct (total_loss_at cfg vgg content_features style_grams target (store s))
    as [total_loss|e] eqn:Hloss; [|discriminate].
  destruct (decide (show_every cfg = 0)); [discriminate|].
  destruct (decide (ii `mod` show_every cfg = 0)); [|contradiction].
  unfold show_result in Hrun. cbn [with_event store] in Hrun.
  set (s4 := after_updates W _ optimizer _) in *.
  destruct (store s4 !! target) as [prm|] eqn:Hprm; [|discriminate].
  destruct (im_convert (pvalue prm)) as [image|] eqn:Hconv; [|discriminate].
  inversion Hrun; subst s'; clear Hrun.
  exists total_loss, prm, image. split; [reflexivity|].
  split; [exact Hprm|]. split; [exact Hconv|].
  simpl. unfold s4. rewrite after_updates_trace. simpl.
  rewrite <- !app_assoc. reflexivity.
Qed.

(** X16.  The image a run saves is the conversion of the target as the
    last pass left it, and it is the only one saved. *)
Theorem export_is_final_target (s : State) :
  main W cfg initial_state = (Ok (), s) →
  ∃ p s1 prm image,
    prepare W cfg initial_state = (Ok p, s1) ∧
    store s !! p_target p = Some prm ∧
    im_convert (pvalue prm) = Ok image ∧
    exports (trace s) = [image].
Proof.
  intros Hrun.
  apply main_run in Hrun as (p & s1 & s2 & prm & image & Hprep & Hloop & Hprm & Hconv & ->).
  exists p, s1, prm, image. split; [exact Hprep|]. split; [exact Hprm|].
  split; [exact Hconv|].
  apply prepare_spec in Hprep as (_ & _ & _ & _ & T1).
  apply passes_run in Hloop as (passes & _ & T2).
  destruct (loads_unseen (R := R) (content_path cfg) (style_path cfg))
    as (_ & _ & _ & _ & L5).
  simpl. rewrite T2, T1, !exports_app, L5, passes_exports. reflexivity.
Qed.

End PassFacts.

Lemma no_show_interval_raises_witness :
  ¬ is_Ok (fst (main ex_small_world ex_config_no_show initial_state)) ∧
  ∀ (vgg : list (string * Layer (R := Z)))
    (content_features style_grams : Dict (Tensor Z))
    (target : nat) (optimizer : Adam (R := Z)) (ii : nat) (s : State (R := Z))
    (total_loss : Z),
    total_loss_at ex_config_no_show vgg content_features style_grams target (store s)
      = Ok total_loss →
    iteration ex_small_world ex_config_no_show vgg content_features style_grams
      target optimizer ii s =
    (Raise ZeroDivisionError,
     after_updates ex_small_world
       (total_loss_at ex_config_no_show vgg content_features style_grams target) optimizer
       (with_event s (EvAddScalar "total_loss" total_loss ii))).
Proof.
  apply (no_show_interval_raises ex_small_world ex_config_no_show). reflexivity.
Defined.

Lemma snapshot_shows_updated_target_witness :
  ∃ total_loss prm image,
    total_loss_at ex_config (p_vgg ex_prepared) (p_content_features ex_prepared)
      (p_style_grams ex_prepared) (p_target ex_prepared) (store ex_start)
      = Ok total_loss ∧
    store (snd (ex_pass 0 ex_start)) !! p_target ex_prepared = Some prm ∧
    im_convert (pvalue prm) = Ok image ∧
    trace (snd (ex_pass 0 ex_start)) = trace ex_start ++
      [EvAddScalar "total_loss" total_loss 0; EvPrint "Total loss: " total_loss;
       EvImshow image; EvAddFigure "figs" 0].
Proof.
  apply (snapshot_shows_updated_target ex_small_world ex_config (p_vgg ex_prepared)
           (p_content_features ex_prepared) (p_style_grams ex_prepared)
           (p_target ex_prepared) (p_optimizer ex_prepared) 0 ex_start
           (snd (ex_pass 0 ex_start))).
  - vm_compute. reflexivity.
  - reflexivity.
Defined.

Lemma export_is_final_target_witness :
  ∃ p s1 prm image,
    prepare ex_small_world ex_config initial_state = (Ok p, s1) ∧
    store (snd (main ex_small_world ex_config initial_state)) !! p_target p = Some prm ∧
    im_convert (pvalue prm) = Ok image ∧
    exports (trace (snd (main ex_small_world ex_config initial_state))) = [image].
Proof.
  apply (export_is_final_target ex_small_world ex_config).
  vm_compute. reflexivity.
Defined.

(** ** The target through the loop *)

Section TargetFacts.
Context {R : Type} `{Scalar R}.
Variable W : World (R := R).
Variable cfg : Config (R := R).

#[local] Abbreviation State := (State (R := R)).
#[local] Abbreviation Adam := (Adam (R := R)).
#[local] Abbreviation Prepared := (Prepared (R := R)).
#[local] Abbreviation Network := (list (string * Layer (R := R))).
#[local] Abbreviation Store := (gmap nat (Param (R := R))).

(** What the preparation leaves, with the content tensor in view. *)
Lemma prepare_parts (p : Prepared) (s : State) :
  prepare W cfg initial_state = (Ok p, s) →
  ∃ (content : Tensor R) (st : Store),
    (∀ s0, fst (load_image W (content_path cfg) (max_size cfg) None s0) = Ok content) ∧
    store s = <[p_target p := mkParam content true None]> st ∧
    p_content_features p = get_features st content (p_vgg p) None ∧
    (∀ id, id ∈ parameters (p_vgg p) → id ≠ p_target p).
Proof.
  destruct (frozen_network_run W)
    as (vgg & s1 & s2 & Hload & Hfreeze & T2 & A2 & Fr & In2 & Fresh).
  unfold prepare. rewrite bind_run, Hload, bind_run, Hfreeze. intros Hrun.
  apply bind_run_Ok in Hrun as (content & s3 & Hc & Hrun).
  pose proof (load_image_state W (content_path cfg) (max_size cfg) None s2) as S3.
  rewrite Hc in S3. simpl in S3.
  apply bind_run_Ok in Hrun as (style & s4 & Hs & Hrun).
  pose proof (load_image_state W (style_path cfg) (max_size cfg)
                (Some (last2 (tshape content))) s3) as S4.
  rewrite Hs in S4. simpl in S4.
  apply bind_run_Ok in Hrun as (st & s5 & Hget & Hrun).
  inversion Hget; subst st s5; clear Hget.
  apply bind_run_Ok in Hrun as (grams & s5 & Hgram & Hrun).
  inversion Hgram as [[Hg Hs5]]; subst s5; clear Hgram.
  apply bind_run_Ok in Hrun as (target & s6 & Halloc & Hrun).
  inversion Halloc as [[Ht Hs6]]; clear Halloc.
  inversion Hrun; subst p s; clear Hrun. simpl.
  subst target s6. exists content, (store s4).
  split.
  { intros s0. rewrite load_image_run in Hc. rewrite load_image_run. simpl.
    inversion Hc as [[Hr Hst]]. reflexivity. }
  split; [reflexivity|]. split; [reflexivity|].
  intros id Hin. assert (Hlt : id < next_id s2) by auto.
  subst s4 s3. simpl. lia.
Qed.

Lemma keeps_trainable_refl (target : nat) (s : State) : keeps_trainable target s s.
Proof. intros Ht. exact Ht. Qed.

Lemma keeps_trainable_trans (target : nat) (s1 s2 s3 : State) :
  keeps_trainable target s1 s2 → keeps_trainable target s2 s3 →
  keeps_trainable target s1 s3.
Proof. unfold keeps_trainable. auto. Qed.

Lemma emit_keeps_trainable (target : nat) (e : Event (R := R)) :
  preserves (keeps_trainable target) (emit e).
Proof. intros s Ht. exact Ht. Qed.

Lemma zero_grad_keeps_trainable (target : nat) (optimizer : Adam) :
  preserves (keeps_trainable target) (zero_grad optimizer).
Proof.
  unfold zero_grad.
  apply preserves_for_each;
    [apply keeps_trainable_refl | apply keeps_trainable_trans |].
  intros id s (p & Hp & Hrg). cbv beta. rewrite bind_run. simpl.
  destruct (store s !! id) as [q|] eqn:Hq; simpl; [|exists p; auto].
  unfold trainable. simpl.
  destruct (decide (id = target)) as [Heq|Hne].
  - subst id. rewrite lookup_insert_eq. eexists. split; [reflexivity|].
    simpl. congruence.
  - rewrite lookup_insert_ne by exact Hne. exists p. auto.
Qed.

Lemma backward_keeps_trainable (target : nat) (loss : Store → Result R) :
  preserves (keeps_trainable target) (backward W loss).
Proof.
  intros s (p & Hp & Hrg). unfold trainable. simpl.
  rewrite map_lookup_imap, Hp. simpl. rewrite Hrg.
  destruct (autograd W loss (store s) target); eexists; split; eauto.
Qed.

Lemma step_keeps_trainable (target : nat) (optimizer : Adam) :
  preserves (keeps_trainable target) (step W optimizer).
Proof.
  unfold step.
  apply preserves_for_each;
    [apply keeps_trainable_refl | apply keeps_trainable_trans |].
  intros id s (p & Hp & Hrg). unfold adam_update.
  destruct (store s !! id) as [q|] eqn:Hq; [|exists p; auto].
  destruct (pgrad q) as [g|]; [|exists p; auto].
  destruct (adam_math W _ _ _ _) as [[value m] v]. unfold trainable. simpl.
  destruct (decide (id = target)) as [Heq|Hne].
  - subst id. rewrite lookup_insert_eq. eexists. split; [reflexivity|].
    simpl. congruence.
  - rewrite lookup_insert_ne by exact Hne. exists p. auto.
Qed.

Lemma iteration_keeps_trainable (vgg : Network)
    (content_features style_grams : Dict (Tensor R))
    (target : nat) (optimizer : Adam) (ii : nat) :
  preserves (keeps_trainable target)
    (iteration W cfg vgg content_features style_grams target optimizer ii).
Proof.
  intros s Ht. rewrite iteration_run. unfold pass_result.
  destruct (total_loss_at _ _ _ _ _ _) as [total_loss|e]; [|exact Ht].
  set (loss := total_loss_at cfg vgg content_features style_grams target).
  set (s1 := with_event s (EvAddScalar "total_loss" total_loss ii)).
  assert (H4 : trainable target (after_updates W loss optimizer s1)).
  { unfold after_updates.
    apply step_keeps_trainable, backward_keeps_trainable, zero_grad_keeps_trainable.
    exact Ht. }
  destruct (decide (show_every cfg = 0)); [exact H4|].
  destruct (decide (ii `mod` show_every cfg = 0)); [|exact H4].
  unfold show_result. cbn [with_event store].
  destruct (store (after_updates W loss optimizer s1) !! target) as [prm|];
    [|exact H4].
  destruct (im_convert (pvalue prm)); exact H4.
Qed.

(** X17.  After any number of passes the target is still in the store and
    still asks for a gradient: the display and the export always find it,
    and never raise for a missing tensor. *)
Theorem target_stays_trainable (p : Prepared) (s1 : State) :
  prepare W cfg initial_state = (Ok p, s1) →
  ∀ passes : nat,
    trainable (p_target p)
      (snd (for_each (seq 0 passes)
              (iteration W cfg (p_vgg p) (p_content_features p) (p_style_grams p)
                 (p_target p) (p_optimizer p)) s1)).
Proof.
  intros Hprep passes.
  apply prepare_parts in Hprep as (content & st & _ & Hstore & _).
  apply (preserves_for_each (keeps_trainable (p_target p)));
    [apply keeps_trainable_refl | apply keeps_trainable_trans | |].
  - intros ii. apply iteration_keeps_trainable.
  - exists (mkParam content true None). rewrite Hstore, lookup_insert_eq. auto.
Qed.

(** The three calls on a target that asks for a gradient. *)
Lemma updates_on_target (target : nat) (lr : R) (loss : Store → Result R)
    (s : State) (p : Param (R := R)) (g : Tensor R) :
  store s !! target = Some p →
  requires_grad p = true →
  autograd W loss (<[target := mkParam (pvalue p) true None]> (store s)) target = Some g →
  let s' := after_updates W loss (mkAdam [target] lr) s in
  step_count s' target = S (step_count s target) ∧
  ∃ value, store s' !! target = Some (mkParam value true (Some g)).
Proof.
  intros Hp Hrg Hg s'. unfold s', after_updates, zero_grad, step. simpl.
  rewrite !bind_run. simpl. rewrite Hp. simpl. rewrite Hrg.
  unfold adam_update. simpl.
  rewrite map_lookup_imap, lookup_insert_eq. simpl. rewrite Hg. simpl.
  destruct (adam_math W lr _ (pvalue p) g) as [[value m] v] eqn:Hmath. simpl.
  split.
  - unfold step_count. simpl. rewrite lookup_insert_eq. simpl.
    destruct (adam_state s !! target); reflexivity.
  - exists value. rewrite lookup_insert_eq. reflexivity.
Qed.



(** The loss reads the value of the target only: its gradient and its
    flag do not matter. *)
Lemma total_loss_at_value (vgg : Network) (content_features style_grams : Dict (Tensor R))
    (target : nat) (st : Store) (p : Param (R := R)) (flag : bool)
    (grad : option (Tensor R)) :
  st !! target = Some p →
  total_loss_at cfg vgg content_features style_grams target
    (<[target := mkParam (pvalue p) flag grad]> st) =
  total_loss_at cfg vgg content_features style_grams target st.
Proof.
  intros Hp. unfold total_loss_at. rewrite lookup_insert_eq, Hp. cbn [pvalue].
  f_equal. rewrite !get_features_fold. f_equal.
  apply capture_fold_agree. intros id _.
  destruct (decide (id = target)) as [Heq|Hne].
  - subst id. rewrite lookup_insert_eq, Hp. reflexivity.
  - rewrite lookup_insert_ne by congruence. reflexivity.
Qed.

Lemma passes_count (vgg : Network) (content_features style_grams : Dict (Tensor R))
    (target : nat) (lr : R) :
  let loss := total_loss_at cfg vgg content_features style_grams target in
  (∀ st, is_Ok (loss st) → is_Some (st !! target) →
         is_Some (autograd W loss st target)) →
  ∀ (n a : nat) (s s' : State),
    trainable target s →
    for_each (seq a n)
      (iteration W cfg vgg content_features style_grams target (mkAdam [target] lr)) s
      = (Ok (), s') →
    step_count s' target = step_count s target + n.
Proof.
  intros loss Hreach. induction n as [|n IH]; intros a s s' Ht Hrun; simpl in Hrun.
  - inversion Hrun. lia.
  - apply bind_run_Ok in Hrun as ([] & s1 & Hpass & Hrest).
    pose proof (iteration_keeps_trainable vgg content_features style_grams target
                  (mkAdam [target] lr) a s Ht) as Ht1.
    rewrite Hpass in Ht1. simpl in Ht1.
    rewrite (IH (S a) s1 s' Ht1 Hrest).
    enough (step_count s1 target = S (step_count s target)) by lia.
    clear IH Hrest Ht1. destruct Ht as (p & Hp & Hrg).
    rewrite iteration_run in Hpass. unfold pass_result in Hpass.
    fold loss in Hpass.
    destruct (loss (store s)) as [total_loss|e] eqn:Hloss; [|discriminate].
    destruct (Hreach (<[target := mkParam (pvalue p) true None]> (store s)))
      as [g Hg].
    { unfold loss. rewrite (total_loss_at_value _ _ _ _ _ _ _ _ Hp).
      fold loss. rewrite Hloss. exact I. }
    { rewrite lookup_insert_eq. eauto. }
    destruct (updates_on_target target lr loss
                (with_event s (EvAddScalar "total_loss" total_loss a)) p g Hp Hrg Hg)
      as [Hcount _].
    change (step_count (with_event s (EvAddScalar "total_loss" total_loss a)) target)
      with (step_count s target) in Hcount.
    destruct (decide (show_every cfg = 0)); [discriminate|].
    destruct (decide (a `mod` show_every cfg = 0)).
    + unfold show_result in Hpass. cbn [with_event store] in Hpass.
      destruct (store (after_updates W loss _ _) !! target) as [prm|]; [|discriminate].
      destruct (im_convert (pvalue prm)); [|discriminate].
      inversion Hpass; subst s1. exact Hcount.
    + inversion Hpass; subst s1. exact Hcount.
Qed.

(** X19.  When differentiation gives the target a gradient of the loss of
    the run wherever that loss has a value, the optimiser has made exactly
    one step for each pass of a loop that returned. *)
Theorem one_step_per_pass (p : Prepared) (s1 s2 : State) (passes : nat) :
  let loss := total_loss_at cfg (p_vgg p) (p_content_features p) (p_style_grams p)
                (p_target p) in
  prepare W cfg initial_state = (Ok p, s1) →
  (∀ st, is_Ok (loss st) → is_Some (st !! p_target p) →
         is_Some (autograd W loss st (p_target p))) →
  for_each (seq 0 passes)
    (iteration W cfg (p_vgg p) (p_content_features p) (p_style_grams p)
       (p_target p) (p_optimizer p)) s1 = (Ok (), s2) →
  step_count s2 (p_target p) = passes.
Proof.
  intros loss Hprep Hreach Hloop.
  pose proof (prepare_spec W cfg p s1 Hprep) as (Hopt & _ & Hadam & _).
  apply prepare_parts in Hprep as (content & st & _ & Hstore & _).
  rewrite Hopt in Hloop.
  rewrite (passes_count (p_vgg p) (p_content_features p) (p_style_grams p)
             (p_target p) (learning_rate cfg) Hreach passes 0 s1 s2);
    [| |exact Hloop].
  - unfold step_count. rewrite Hadam, lookup_empty. reflexivity.
  - exists (mkParam content true None). rewrite Hstore, lookup_insert_eq. auto.
Qed.

Lemma loop_keeps_network (p : Prepared) (s1 : State) (passes : nat) :
  prepare W cfg initial_state = (Ok p, s1) →
  ∀ id, id ∈ parameters (p_vgg p) →
    store (snd (for_each (seq 0 passes)
                  (iteration W cfg (p_vgg p) (p_content_features p) (p_style_grams p)
                     (p_target p) (p_optimizer p)) s1)) !! id = store s1 !! id.
Proof.
  intros Hprep id Hin.
  apply prepare_spec in Hprep as (Hopt & Hfrozen & _ & Hparams & _).
  rewrite Hopt.
  assert (Hframe : frame (p_target p) s1
            (snd (for_each (seq 0 passes)
                    (iteration W cfg (p_vgg p) (p_content_features p) (p_style_grams p)
                       (p_target p) (mkAdam [p_target p] (learning_rate cfg))) s1))).
  { apply (preserves_for_each (frame (p_target p)));
      [apply frame_refl | apply frame_trans |].
    intros ii. apply iteration_frame. }
  destruct (Hframe Hfrozen) as [Hstore _]. apply Hstore.
  apply (Hparams id Hin).
Qed.

(** X20.  Features computed before the loop stay right through it: after
    any number of passes the network gives every image the features it
    gave before the first pass, so the content features and the style
    Gram matrices need computing once only. *)
Theorem features_stay_valid (p : Prepared) (s1 : State) (passes : nat) (image : Tensor R) :
  prepare W cfg initial_state = (Ok p, s1) →
  get_features
    (store (snd (for_each (seq 0 passes)
                   (iteration W cfg (p_vgg p) (p_content_features p) (p_style_grams p)
                      (p_target p) (p_optimizer p)) s1)))
    image (p_vgg p) None =
  get_features (store s1) image (p_vgg p) None.
Proof.
  intros Hprep. rewrite !get_features_fold. f_equal.
  apply capture_fold_agree. intros id Hin.
  rewrite (loop_keeps_network p s1 passes Hprep id Hin). reflexivity.
Qed.

(** X21.  The loop starts from the content image: the target is the
    content tensor, asking for a gradient, and its features at the first
    pass are the content features themselves. *)
Theorem first_pass_starts_at_content (p : Prepared) (s1 : State) :
  prepare W cfg initial_state = (Ok p, s1) →
  ∃ content,
    fst (load_image W (content_path cfg) (max_size cfg) None initial_state) = Ok content ∧
    store s1 !! p_target p = Some (mkParam content true None) ∧
    get_features (store s1) content (p_vgg p) None = p_content_features p.
Proof.
  intros Hprep.
  apply prepare_parts in Hprep as (content & st & Hload & Hstore & Hfeatures & Hne).
  exists content. split; [apply Hload|].
  rewrite Hstore, lookup_insert_eq. split; [reflexivity|].
  rewrite Hfeatures, !get_features_fold. f_equal.
  apply capture_fold_agree. intros id Hin.
  rewrite lookup_insert_ne by (intros Heq; apply (Hne id Hin); congruence).
  reflexivity.
Qed.

End TargetFacts.

Lemma ex_prepared_run :
  prepare ex_small_world ex_config initial_state = (Ok ex_prepared, ex_start).
Proof. vm_compute. reflexivity. Qed.

Lemma ex_autograd_reaches (loss : gmap nat (Param (R := Z)) → Result Z)
    (st : gmap nat (Param (R := Z))) (id : nat) :
  is_Some (st !! id) → is_Some (autograd ex_small_world loss st id).
Proof. intros [p Hp]. simpl. unfold ex_autograd. rewrite Hp. simpl. eauto. Qed.

Lemma target_stays_trainable_witness :
  trainable (p_target ex_prepared) ex_after_four.
Proof.
  apply (target_stays_trainable ex_small_world ex_config ex_prepared ex_start
           ex_prepared_run 4).
Defined.


Lemma ex_numeric_autograd_reaches (loss : gmap nat (Param (R := Z)) → Result Z)
    (st : gmap nat (Param (R := Z))) (id : nat) :
  is_Ok (loss st) → is_Some (st !! id) → is_Some (ex_numeric_autograd loss st id).
Proof.
  intros Hok [p Hp]. unfold ex_numeric_autograd. rewrite Hp. simpl.
  destruct (loss st); [eauto | contradiction].
Qed.

(** Differentiation by finite differences gives no gradient of a loss
    that raises: it is not a gradient for every loss. *)
Example ex_numeric_autograd_of_failure :
  ex_numeric_autograd (λ _, Raise RuntimeError) (store ex_contrast_start)
    (p_target ex_contrast_prepared) = None.
Proof. vm_compute. reflexivity. Qed.

Lemma one_step_per_pass_witness :
  step_count ex_numeric_after_four (p_target ex_contrast_prepared) = 4.
Proof.
  apply (one_step_per_pass ex_numeric_world ex_config ex_contrast_prepared
           ex_contrast_start ex_numeric_after_four 4).
  - vm_compute. reflexivity.
  - intros st Hok Htarget. apply ex_numeric_autograd_reaches; assumption.
  - vm_compute. reflexivity.
Defined.

Lemma features_stay_valid_witness :
  get_features (store ex_after_four) ex_content (p_vgg ex_prepared) None =
  get_features (store ex_start) ex_content (p_vgg ex_prepared) None.
Proof.
  apply (features_stay_valid ex_small_world ex_config ex_prepared ex_start 4 ex_content
           ex_prepared_run).
Defined.

Lemma first_pass_starts_at_content_witness :
  ∃ content,
    fst (load_image ex_small_world (content_path ex_config) (max_size ex_config) None
           initial_state) = Ok content ∧
    store ex_start !! p_target ex_prepared = Some (mkParam content true None) ∧
    get_features (store ex_start) content (p_vgg ex_prepared) None =
    p_content_features ex_prepared.
Proof.
  apply (first_pass_starts_at_content ex_small_world ex_config ex_prepared ex_start
           ex_prepared_run).
Defined.
